(** * ctile: a read-through tile cache in front of a CT log's get-entries

    A shallow embedding of [main.go]: the query parser, the tile
    arithmetic, the cache and backend adapters and the HTTP handler,
    followed by the properties the design document states about them.

    Conventions.
    - Go's [int64] is a [Z] in the range [min_int64 .. max_int64]; every
      [+] and [-] of the source is written with its wrap-around
      ([add64], [sub64]).  Go's [int] is taken to be 64 bits wide (the
      platforms the binary is built for), so [int(x)], [int64(x)] and
      [int64(len(s))] are the identity.
    - Go strings are [string]s, byte slices are [list Byte.byte].
    - Everything behind an interface of another package (S3, the HTTP
      client, gzip, CBOR, JSON, [strconv.Quote]) is a field of an
      [environment]; [strconv.ParseInt] and the [%d] verb are modelled
      after the Go standard library. *)

From Stdlib Require Import ZArith Lia String Ascii List.
From Stdlib Require Import DecimalString DecimalZ DecimalPos.
From stdpp Require Import gmap strings list.

Local Open Scope Z_scope.

(* ================================================================== *)
(** ** Machine integers *)

Module Int64.

Definition min_int64 : Z := - 2 ^ 63.
Definition max_int64 : Z := 2 ^ 63 - 1.

(** Membership in the [int64] range. *)
Definition in_range (z : Z) : Prop := min_int64 <= z <= max_int64.

(** Two's complement wrap-around of a mathematical integer. *)
Definition wrap (z : Z) : Z := (z + 2 ^ 63) mod 2 ^ 64 - 2 ^ 63.

Definition add (a b : Z) : Z := wrap (a + b).
Definition sub (a b : Z) : Z := wrap (a - b).

(** Go's [%] truncates towards zero: the sign follows the dividend.
    A zero divisor panics in Go; callers guard it. *)
Definition rem (a b : Z) : Z := Z.rem a b.

End Int64.

Abbreviation add64 := Int64.add.
Abbreviation sub64 := Int64.sub.
Abbreviation rem64 := Int64.rem.
Abbreviation min_int64 := Int64.min_int64.
Abbreviation max_int64 := Int64.max_int64.

(* ================================================================== *)
(** ** Formatting and parsing of decimal integers (package strconv, fmt) *)

Definition nl : string := String (ascii_of_nat 10) EmptyString.

(** [fmt.Sprintf("%d", z)]: the shortest decimal rendering, with a
    leading [-] for negative numbers. *)
Definition Sprintf_d (z : Z) : string := NilZero.string_of_int (Z.to_int z).

Module Strconv.

Inductive num_err := ErrSyntax | ErrRange.

Definition maxUint64 : Z := 2 ^ 64 - 1.

(** [cutoff] is the smallest number such that [cutoff * 10 > maxUint64]. *)
Definition cutoff10 : Z := maxUint64 / 10 + 1.

Definition byte_of (c : ascii) : Z := Z.of_nat (nat_of_ascii c).

(** The value of a decimal digit; letters are digits of a larger base
    and every other byte is no digit at all: both end in a syntax error
    for base 10. *)
Definition digit (c : ascii) : option Z :=
  let b := byte_of c in
  if (48 <=? b) && (b <=? 57) then Some (b - 48) else None.

(** The loop of [ParseUint(s, 10, 64)], in [uint64] arithmetic. *)
Fixpoint ParseUint_loop (s : string) (n : Z) : Z + num_err :=
  match s with
  | EmptyString => inl n
  | String c s' =>
      match digit c with
      | None => inr ErrSyntax
      | Some d =>
          if cutoff10 <=? n then inr ErrRange          (* n*base overflows *)
          else
            let n' := (n * 10) mod 2 ^ 64 in
            let n1 := (n' + d) mod 2 ^ 64 in
            if (n1 <? n') || (maxUint64 <? n1) then inr ErrRange
            else ParseUint_loop s' n1
      end
  end.

Definition ParseUint (s : string) : Z + num_err :=
  match s with
  | EmptyString => inr ErrSyntax
  | _ => ParseUint_loop s 0
  end.

(** The second half of [ParseInt(s, 10, 64)]: the range check of the
    unsigned result [r] against the sign, and the conversion to
    [int64]. *)
Definition check_range (neg : bool) (r : Z + num_err) : Z + num_err :=
  match r with
  | inr ErrSyntax => inr ErrSyntax
  | _ =>
      (* a range error of ParseUint comes with un = maxVal *)
      let un := match r with inl u => u | inr _ => maxUint64 end in
      let cutoff := 2 ^ 63 in
      if negb neg && (cutoff <=? un) then inr ErrRange
      else if neg && (cutoff <? un) then inr ErrRange
      else
        match r with
        | inr e => inr e
        | inl _ =>
            let n := Int64.wrap un in
            inl (if neg then Int64.wrap (- n) else n)
        end
  end.

(** [ParseInt(s, 10, 64)]: the value, or the kind of [*NumError]. *)
Definition ParseInt (s : string) : Z + num_err :=
  match s with
  | EmptyString => inr ErrSyntax
  | String c s' =>
      (* pick off leading sign *)
      let neg := Ascii.eqb c "-" in
      let s1 := if Ascii.eqb c "+" || neg then s' else s in
      check_range neg (ParseUint s1)
  end.

End Strconv.

(** The reading of a query parameter as a number, independent of any
    parser: a decimal numeral is an optional sign followed by one or
    more digits, and its value is taken over the unbounded integers. *)
Module Numeral.

Fixpoint digits_value (s : string) (acc : Z) : option Z :=
  match s with
  | EmptyString => Some acc
  | String c s' =>
      match Strconv.digit c with
      | Some d => digits_value s' (10 * acc + d)
      | None => None
      end
  end.

Definition unsigned_value (s : string) : option Z :=
  match s with
  | EmptyString => None
  | _ => digits_value s 0
  end.

Definition numeral_value (s : string) : option Z :=
  match s with
  | EmptyString => None
  | String c s' =>
      if Ascii.eqb c "+" then unsigned_value s'
      else if Ascii.eqb c "-" then Z.opp <$> unsigned_value s'
      else unsigned_value s
  end.

End Numeral.

(** A query parameter denotes a non-negative [int64]: it is a decimal
    numeral whose value lies in [0 .. 2^63 - 1]. *)
Definition nonneg_int64_numeral (s : string) (n : Z) : Prop :=
  Numeral.numeral_value s = Some n /\ 0 <= n <= max_int64.

(* ================================================================== *)
(** ** Errors *)

(** The error values that travel through the program.  [wrapError] is
    [fmt.Errorf(prefix + "%w", inner)]; [wrapNil] is the same call with a
    nil error passed to [%w]. *)
Inductive go_error :=
| errorString (msg : string)
| NumError (Func Num : string) (Err : Strconv.num_err)
| wrapError (prefix : string) (inner : go_error)
| wrapNil (prefix : string)
| statusCodeError (statusCode : Z) (body : list Byte.byte)
| noSuchKey
| foreignError (msg : string).

Section ErrorText.
(** [strconv.Quote], which [%q] and [NumError.Error] use. *)
Variable Quote : string -> string.

Definition num_err_text (e : Strconv.num_err) : string :=
  match e with
  | Strconv.ErrSyntax => "invalid syntax"
  | Strconv.ErrRange => "value out of range"
  end.

(** The [Error()] method of each error value. *)
Fixpoint Error (e : go_error) : string :=
  match e with
  | errorString msg => msg
  | NumError f n err =>
      "strconv." +:+ f +:+ ": parsing " +:+ Quote n +:+ ": " +:+ num_err_text err
  | wrapError prefix inner => prefix +:+ Error inner
  | wrapNil prefix => prefix +:+ "%!w(<nil>)"
  | statusCodeError code body =>
      "backend responded with status code " +:+ Sprintf_d code
        +:+ " and body:" +:+ nl +:+ string_of_list_byte body
  | noSuchKey => "no such key"
  | foreignError msg => msg
  end.
End ErrorText.

(* ================================================================== *)
(** ** Query parameters *)

(** [url.Values.Get]: the first value of the key, or the empty string. *)
Definition Values_Get (values : gmap string (list string)) (key : string) : string :=
  match values !! key with
  | Some (v :: _) => v
  | _ => EmptyString
  end.

(** [parseQueryParams] returns the start and end values, or an error.
    The end value it returns is one greater than in the request. *)
Definition parseQueryParams (values : gmap string (list string))
  : (Z * Z) + go_error :=
  let start := Values_Get values "start" in
  let end_ := Values_Get values "end" in
  if String.eqb start EmptyString then inr (errorString "missing start parameter")
  else if String.eqb end_ EmptyString then inr (errorString "missing end parameter")
  else
    match Strconv.ParseInt start with
    | inr e => inr (wrapError "invalid start parameter: " (NumError "ParseInt" start e))
    | inl startInt =>
        if startInt <? 0
        then inr (wrapNil "invalid start parameter: ")
        else
          match Strconv.ParseInt end_ with
          | inr e => inr (wrapError "invalid end parameter: " (NumError "ParseInt" end_ e))
          | inl endInt =>
              if endInt <? 0
              then inr (wrapNil "invalid end parameter: ")
              else if endInt <? startInt
              then inr (errorString "end must be greater than or equal to start")
              else inl (startInt, add64 endInt 1)
          end
    end.

(* ================================================================== *)
(** ** Tiles *)

(** [tile_start] is inclusive and [tile_end] is exclusive: the half-open
    interval [[tile_start, tile_end)]. *)
Record tile := {
  tile_start : Z;
  tile_end : Z;
  tile_size : Z;
  tile_logURL : string
}.

(** [makeTile] returns a tile of size [size] that contains the given
    [start] position. *)
Definition makeTile (start size : Z) (logURL : string) : tile :=
  let tileOffset := rem64 start size in
  let tileStart := sub64 start tileOffset in
  {| tile_start := tileStart;
     tile_end := add64 tileStart size;
     tile_size := size;
     tile_logURL := logURL |}.

(** [key] returns the S3 key for the tile. *)
Definition key (t : tile) : string :=
  "tile_size=" +:+ Sprintf_d (tile_size t) +:+ "/" +:+ Sprintf_d (tile_start t)
    +:+ ".cbor.gz".

(** [url] returns the URL to fetch the tile from the backend. *)
Definition url (t : tile) : string :=
  tile_logURL t +:+ "/ct/v1/get-entries?start=" +:+ Sprintf_d (tile_start t)
    +:+ "&end=" +:+ Sprintf_d (sub64 (tile_end t) 1).

(** The [%v] rendering of a tile: its fields between braces. *)
Definition Sprintf_v_tile (t : tile) : string :=
  "{" +:+ Sprintf_d (tile_start t) +:+ " " +:+ Sprintf_d (tile_end t) +:+ " "
    +:+ Sprintf_d (tile_size t) +:+ " " +:+ tile_logURL t +:+ "}".

(** The invariants the design gives a tile. *)
Definition tile_invariant (t : tile) : Prop :=
  tile_end t = tile_start t + tile_size t /\ 0 < tile_size t /\
  tile_start t mod tile_size t = 0 /\ 0 <= tile_start t.

(* ================================================================== *)
(** ** Entries *)

Record entry := {
  LeafInput : list Byte.byte;
  ExtraData : list Byte.byte
}.

Record entries := { Entries : list entry }.

Definition len {A} (l : list A) : Z := Z.of_nat (length l).

(** Go's slice expressions [s[i:]] and [s[:j]]; [None] is the run-time
    panic for an index out of range. *)
Definition slice_from {A} (s : list A) (i : Z) : option (list A) :=
  if (i <? 0) || (len s <? i) then None else Some (drop (Z.to_nat i) s).

Definition slice_to {A} (s : list A) (j : Z) : option (list A) :=
  if (j <? 0) || (len s <? j) then None else Some (take (Z.to_nat j) s).

(* ================================================================== *)
(** ** The world outside the program *)

(** The result of [s3.Client.GetObject]: an error (which may or may not
    be a [*types.NoSuchKey]) or the object's body. *)
Inductive get_object_output :=
| GetObject_error (is_NoSuchKey : bool) (err : go_error)
| GetObject_ok (body : list Byte.byte).

(** An [*http.Response]: its status code and what reading its body to
    the end gives. *)
Record http_response := {
  StatusCode : Z;
  Body : list Byte.byte + go_error
}.

Record environment := {
  Quote : string -> string;
  s3_GetObject : string -> string -> get_object_output;
  s3_PutObject : string -> string -> list Byte.byte -> option go_error;
  (** [gzip.NewReader] on an object body: the decompressed stream. *)
  gzip_NewReader : list Byte.byte -> list Byte.byte + go_error;
  cbor_Decode : list Byte.byte -> entries + go_error;
  (** [cbor.NewEncoder(w).Encode(e)] into the gzip writer, and
      [w.Close()], which leaves the compressed bytes in the buffer. *)
  cbor_Encode : entries -> list Byte.byte + go_error;
  gzip_Close : list Byte.byte -> list Byte.byte + go_error;
  http_NewRequest : string -> option go_error;
  http_Do : string -> http_response + go_error;
  json_Decode : list Byte.byte -> entries + go_error
}.

(** What the handler does to the outside, in order. *)
Inductive event :=
| GetObjectCall (bucket key : string)
| BackendCall (url : string)
| writeToS3Call (t : tile) (e : entries)
| PutObjectCall (bucket key : string) (body : list Byte.byte).

(** [errors.Is(err, noSuchKey{})] and [errors.As(err, &statusCodeErr)]
    walk the chain of wrapped errors. *)
Fixpoint errors_Is_noSuchKey (e : go_error) : bool :=
  match e with
  | noSuchKey => true
  | wrapError _ inner => errors_Is_noSuchKey inner
  | _ => false
  end.

Fixpoint errors_As_statusCodeError (e : go_error) : option (Z * list Byte.byte) :=
  match e with
  | statusCodeError code body => Some (code, body)
  | wrapError _ inner => errors_As_statusCodeError inner
  | _ => None
  end.

(** [tileCachingHandler] is the main HTTP handler. *)
Record tileCachingHandler := {
  logURL : string;
  tileSize : Z;
  s3Prefix : string;
  s3Bucket : string
}.

Section Adapters.
Variable env : environment.

(** [getTileFromBackend] fetches a tile of entries from the backend.
    A non-200 status code becomes a [statusCodeError]. *)
Definition getTileFromBackend (t : tile) : entries + go_error :=
  let url := url t in
  match http_NewRequest env url with
  | Some err => inr (wrapError "unable to create backend Request object: " err)
  | None =>
      match http_Do env url with
      | inr err => inr (wrapError ("fetching " +:+ url +:+ ": ") err)
      | inl resp =>
          if negb (StatusCode resp =? 200) then
            match Body resp with
            | inr err => inr (wrapError ("reading body from " +:+ url +:+ ": ") err)
            | inl body => inr (statusCodeError (StatusCode resp) body)
            end
          else
            let decoded :=
              match Body resp with
              | inr err => inr err
              | inl body => json_Decode env body
              end in
            match decoded with
            | inr err => inr (wrapError ("reading body from " +:+ url +:+ ": ") err)
            | inl es =>
                if (tile_size t <? len (Entries es)) || (len (Entries es) =? 0)
                then inr (errorString ("expected " +:+ Sprintf_d (tile_size t)
                                         +:+ " entries, got "
                                         +:+ Sprintf_d (len (Entries es))))
                else inl es
            end
      end
  end.

Variable tch : tileCachingHandler.

Definition inconsistency (e : entries) (t : tile) : go_error :=
  errorString ("internal inconsistency: len(entries) == "
                 +:+ Sprintf_d (len (Entries e)) +:+ "; tile = " +:+ Sprintf_v_tile t).

(** [writeToS3] stores the entries corresponding to the given tile in
    s3.  It returns the error ([None] is nil) and the [PutObject] call
    it made, if any. *)
Definition writeToS3 (t : tile) (e : entries) : option go_error * list event :=
  if negb (len (Entries e) =? tile_size t)
     || negb (tile_end t =? add64 (tile_start t) (tile_size t))
  then (Some (inconsistency e t), [])
  else
    match cbor_Encode env e with
    | inr err => (None, [])
    | inl raw =>
        match gzip_Close env raw with
        | inr err => (Some (wrapError "closing gzip writer: " err), [])
        | inl body =>
            let key := s3Prefix tch +:+ key t in
            let call := PutObjectCall (s3Bucket tch) key body in
            match s3_PutObject env (s3Bucket tch) key body with
            | Some err =>
                (Some (errorString ("putting in bucket " +:+ Quote env (s3Bucket tch)
                                      +:+ " with key " +:+ Quote env key +:+ ": "
                                      +:+ Error (Quote env) err)),
                 [call])
            | None => (None, [call])
            end
        end
    end.

(** [getFromS3] retrieves the entries corresponding to the given tile
    from s3, or a [noSuchKey] error if the tile is not stored. *)
Definition getFromS3 (t : tile) : entries + go_error :=
  let key := s3Prefix tch +:+ key t in
  match s3_GetObject env (s3Bucket tch) key with
  | GetObject_error true _ => inr noSuchKey
  | GetObject_error false err =>
      inr (wrapError ("getting from bucket " +:+ Quote env (s3Bucket tch)
                        +:+ " with key " +:+ Quote env key +:+ ": ") err)
  | GetObject_ok body =>
      match gzip_NewReader env body with
      | inr err => inr (wrapError "making gzipReader: " err)
      | inl stream =>
          match cbor_Decode env stream with
          | inr err =>
              inr (wrapError ("reading body from bucket " +:+ Quote env (s3Bucket tch)
                                +:+ " with key " +:+ Quote env key +:+ ": ") err)
          | inl es =>
              if negb (len (Entries es) =? tile_size t)
                 || negb (tile_end t =? add64 (tile_start t) (tile_size t))
              then inr (inconsistency es t)
              else inl es
          end
      end
  end.

End Adapters.

(* ================================================================== *)
(** ** The HTTP handler *)

(** What is written to the body: a text, or the (indented) JSON encoding
    of a value of type [entries]. *)
Inductive chunk :=
| Text (s : string)
| JSON (e : entries).

(** An [http.ResponseWriter], as far as the handler uses it: the header
    map, the status code once written, and the body written so far. *)
Record ResponseWriter := {
  Header : gmap string string;
  status : option Z;
  written : list chunk
}.

Definition newResponseWriter : ResponseWriter :=
  {| Header := ∅; status := None; written := [] |}.

Definition Header_Set (k v : string) (w : ResponseWriter) : ResponseWriter :=
  {| Header := <[k := v]> (Header w); status := status w; written := written w |}.

(** [checkWriteHeaderCode] of net/http: a status code has three
    digits. *)
Definition checkWriteHeaderCode (code : Z) : bool :=
  (100 <=? code) && (code <=? 999).

(** [w.WriteHeader(code)]: the first valid code is the status of the
    response; [None] is the panic on an invalid code. *)
Definition WriteHeader (code : Z) (w : ResponseWriter) : option ResponseWriter :=
  if checkWriteHeaderCode code then
    Some {| Header := Header w;
            status := match status w with None => Some code | s => s end;
            written := written w |}
  else None.

Definition Write (c : chunk) (w : ResponseWriter) : ResponseWriter :=
  {| Header := Header w;
     status := match status w with None => Some 200 | s => s end;
     written := written w ++ [c] |}.

Record request := {
  Path : string;
  Query : gmap string (list string)
}.

(** [strings.HasSuffix]. *)
Definition HasSuffix (s suffix : string) : bool :=
  let n := String.length s in
  let m := String.length suffix in
  (m <=? n)%nat && String.eqb (substring (n - m) m s) suffix.

(** How a call of the handler ends: it returns, or a run-time panic
    unwinds it (nothing more is written). *)
Inductive completion := Returned | Panicked.

Record run := {
  response : ResponseWriter;
  trace : list event;
  outcome : completion
}.

Definition StatusOK : Z := 200.
Definition StatusBadRequest : Z := 400.
Definition StatusNotFound : Z := 404.
Definition StatusInternalServerError : Z := 500.

Section Handler.
Variable env : environment.
Variable tch : tileCachingHandler.

Definition finish (w : ResponseWriter) (tr : list event) : run :=
  {| response := w; trace := tr; outcome := Returned |}.

Definition panic (w : ResponseWriter) (tr : list event) : run :=
  {| response := w; trace := tr; outcome := Panicked |}.

(** [w.WriteHeader(code)], one write of the body, and [return]. *)
Definition respond (code : Z) (c : chunk) (w : ResponseWriter)
    (tr : list event) : run :=
  match WriteHeader code w with
  | Some w' => finish (Write c w') tr
  | None => panic w tr
  end.

(** The last part of [ServeHTTP], from "Truncate to match the request"
    to the end: [contents] is the tile's batch, from the cache or from
    the backend. *)
Definition truncateAndRespond (w : ResponseWriter) (tr : list event)
    (start end_ : Z) (t : tile) (contents : entries) : run :=
  let prefixToRemove := sub64 start (tile_start t) in
  if len (Entries contents) <=? prefixToRemove then
    respond StatusBadRequest (Text "requested range is past the end of the log") w tr
  else
    match slice_from (Entries contents) prefixToRemove with
    | None => panic w tr
    | Some rest =>
        let requestedLen := sub64 end_ start in
        let truncated :=
          if requestedLen <? len rest then slice_to rest requestedLen
          else Some rest in
        match truncated with
        | None => panic w tr
        | Some es =>
            let w := Header_Set "X-Response-Len" (Sprintf_d (len es)) w in
            respond StatusOK (JSON {| Entries := es |}) w tr
        end
    end.

Definition ServeHTTP (r : request) : run :=
  let w := newResponseWriter in
  if negb (HasSuffix (Path r) "/ct/v1/get-entries") then
    respond StatusNotFound (Text ("invalid path " +:+ Quote env (Path r) +:+ nl)) w []
  else
    match parseQueryParams (Query r) with
    | inr err =>
        respond StatusBadRequest (Text (Error (Quote env) err +:+ nl)) w []
    | inl (start, end_) =>
        (* start % size panics on a zero size *)
        if tileSize tch =? 0 then panic w []
        else
          let tile := makeTile start (tileSize tch) (logURL tch) in
          let tr := [GetObjectCall (s3Bucket tch) (s3Prefix tch +:+ key tile)] in
          match getFromS3 env tch tile with
          | inl contents =>
              truncateAndRespond (Header_Set "X-Source" "S3" w) tr
                start end_ tile contents
          | inr err =>
              if negb (errors_Is_noSuchKey err) then
                respond StatusInternalServerError
                  (Text ("reading from s3: " +:+ Error (Quote env) err +:+ nl)) w tr
              else
                let tr := tr ++ [BackendCall (url tile)] in
                match getTileFromBackend env tile with
                | inr err =>
                    let status :=
                      match errors_As_statusCodeError err with
                      | Some (code, _) => code
                      | None => StatusInternalServerError
                      end in
                    respond status (Text (Error (Quote env) err +:+ nl)) w tr
                | inl contents =>
                    if len (Entries contents) =? tileSize tch then
                      let (werr, puts) := writeToS3 env tch tile contents in
                      let tr := tr ++ writeToS3Call tile contents :: puts in
                      match werr with
                      | Some err =>
                          respond StatusInternalServerError
                            (Text ("writing to s3: " +:+ Error (Quote env) err +:+ nl))
                            w tr
                      | None =>
                          truncateAndRespond (Header_Set "X-Source" "CT log" w) tr
                            start end_ tile contents
                      end
                    else
                      truncateAndRespond
                        (Header_Set "X-Source" "CT log"
                           (Header_Set "X-Partial-Tile" "true" w)) tr
                        start end_ tile contents
                end
          end
    end.

End Handler.

(* ================================================================== *)
(** ** The phases of a request *)

Section Phases.
Variable env : environment.
Variable tch : tileCachingHandler.
Variable r : request.

(** The tile the handler computes for a requested start. *)
Definition tile_of (start : Z) : tile :=
  makeTile start (tileSize tch) (logURL tch).

(** The request has the path of the endpoint and an accepted range,
    and the handler is configured with a tile size. *)
Definition accepted (start end_ : Z) : Prop :=
  HasSuffix (Path r) "/ct/v1/get-entries" = true /\
  parseQueryParams (Query r) = inl (start, end_) /\
  tileSize tch <> 0.

(** The cache holds the tile of the request. *)
Definition cache_hit (start end_ : Z) (contents : entries) : Prop :=
  accepted start end_ /\ getFromS3 env tch (tile_of start) = inl contents.

(** The cache reports that it has no object for the tile. *)
Definition cache_miss (start end_ : Z) : Prop :=
  accepted start end_ /\
  exists err, getFromS3 env tch (tile_of start) = inr err /\
              errors_Is_noSuchKey err = true.

(** After a cache miss the backend delivers a batch. *)
Definition fetched (start end_ : Z) (contents : entries) : Prop :=
  cache_miss start end_ /\
  getTileFromBackend env (tile_of start) = inl contents.

(** After a cache miss the backend answers with a status other than
    200 and the body [body]. *)
Definition backend_refuses (start end_ : Z) (code : Z) (body : list Byte.byte) : Prop :=
  cache_miss start end_ /\
  http_NewRequest env (url (tile_of start)) = None /\
  exists resp, http_Do env (url (tile_of start)) = inl resp /\
               StatusCode resp = code /\ code <> 200 /\ Body resp = inl body.
End Phases.

(** The events that are cache writes: a call of [writeToS3] and the
    [PutObject] it leads to. *)
Definition is_cache_write (ev : event) : bool :=
  match ev with
  | writeToS3Call _ _ | PutObjectCall _ _ _ => true
  | _ => false
  end.

Definition cache_writes (tr : list event) : list event :=
  List.filter is_cache_write tr.

(** The handler has a batch to serve: it comes from the cache, or it
    comes from the backend and, if it is a full tile, storing it did not
    fail. *)
Definition delivered (env : environment) (tch : tileCachingHandler) (r : request)
    (start end_ : Z) (contents : entries) : Prop :=
  cache_hit env tch r start end_ contents \/
  (fetched env tch r start end_ contents /\
   (len (Entries contents) = tileSize tch ->
    fst (writeToS3 env tch (tile_of tch start) contents) = None)).

(** The body chunks that carry entries. *)
Definition is_entries_chunk (c : chunk) : bool :=
  match c with
  | JSON _ => true
  | Text _ => false
  end.

(** The world after [PutObject] has stored [body] under [bucket] and
    [key]: [GetObject] finds it there. *)
Definition with_object (env : environment) (bucket key : string)
    (body : list Byte.byte) : environment :=
  {| Quote := Quote env;
     s3_GetObject := fun b k =>
       if String.eqb b bucket && String.eqb k key then GetObject_ok body
       else s3_GetObject env b k;
     s3_PutObject := s3_PutObject env;
     gzip_NewReader := gzip_NewReader env;
     cbor_Decode := cbor_Decode env;
     cbor_Encode := cbor_Encode env;
     gzip_Close := gzip_Close env;
     http_NewRequest := http_NewRequest env;
     http_Do := http_Do env;
     json_Decode := json_Decode env |}.

(** The decoders of the world undo its encoders on the batch [e]. *)
Definition codec_round_trip (env : environment) (e : entries) : Prop :=
  forall raw body,
    cbor_Encode env e = inl raw -> gzip_Close env raw = inl body ->
    gzip_NewReader env body = inl raw /\ cbor_Decode env raw = inl e.

(* ================================================================== *)
(** ** Startup *)

(** The command-line flags, after [flag.Parse]; a [time.Duration] is an
    [int64] count of nanoseconds. *)
Record flags := {
  flag_log_url : string;
  flag_tile_size : Z;
  flag_s3_bucket : string;
  flag_s3_prefix : string;
  flag_listen_address : string;
  flag_full_request_timeout : Z
}.

Definition Second : Z := 1000000000.
Definition Minute : Z := 60 * Second.

(** The fields of [http.Server] that [main] sets; [HandlerTimeout] is
    the duration given to [http.TimeoutHandler]. *)
Record server := {
  Addr : string;
  ReadTimeout : Z;
  WriteTimeout : Z;
  IdleTimeout : Z;
  ReadHeaderTimeout : Z;
  HandlerTimeout : Z
}.

(** How [main] goes on: [log.Fatal] with a message, or
    [srv.ListenAndServe] with a handler. *)
Inductive startup :=
| Fatal (msg : string)
| Serve (tch : tileCachingHandler) (srv : server).

(** [main], from the parsed flags to the server it starts;
    [LoadDefaultConfig] is the result of [config.LoadDefaultConfig]
    ([None] is a nil error). *)
Definition main (Quote : string -> string) (f : flags)
    (LoadDefaultConfig : option go_error) : startup :=
  if String.eqb (flag_log_url f) EmptyString then
    Fatal "missing required flag: -log-url"
  else if String.eqb (flag_s3_bucket f) EmptyString then
    Fatal "missing required flag: -s3-bucket"
  else if flag_tile_size f =? 0 then
    Fatal "missing required flag: -tile-size"
  else if flag_full_request_timeout f =? 0 then
    Fatal "-full-request-timeout may not have a timeout value of 0"
  else
    let s3prefix :=
      if String.eqb (flag_s3_prefix f) EmptyString then flag_log_url f
      else flag_s3_prefix f in
    match LoadDefaultConfig with
    | Some err => Fatal (Error Quote err)
    | None =>
        Serve
          {| logURL := flag_log_url f;
             tileSize := flag_tile_size f;
             s3Prefix := s3prefix;
             s3Bucket := flag_s3_bucket f |}
          {| Addr := flag_listen_address f;
             ReadTimeout := 5 * Second;
             WriteTimeout := add64 (flag_full_request_timeout f) (1 * Second);
             IdleTimeout := 5 * Minute;
             ReadHeaderTimeout := 2 * Second;
             HandlerTimeout := flag_full_request_timeout f |}
    end.

(* ================================================================== *)
(** ** Fixtures: concrete worlds for the scenarios *)

Module Scenario.

Definition byte_of_nat (n : nat) : Byte.byte :=
  match Byte.of_nat (n mod 256)%nat with
  | Some b => b
  | None => Byte.x00
  end.

(** The entry at log position [i]: its position, in two bytes. *)
Definition entry_at (i : nat) : entry :=
  {| LeafInput := [byte_of_nat (i / 256); byte_of_nat i]; ExtraData := [] |}.

(** The log entries [[first, first + n)]. *)
Definition batch (first n : nat) : entries :=
  {| Entries := entry_at <$> seq first n |}.

Definition bytes (s : string) : list Byte.byte := list_byte_of_string s.

(** A world described by: what the cache holds for every key (nothing,
    or a batch), what the backend answers, and whether the CBOR encoder
    works.  Object bodies and JSON texts are left empty; the decoders
    return the batches directly. *)
Definition world (cached : option entries) (answer : http_response + go_error)
    (fetched : entries) (encoder_works : bool) : environment :=
  {| Quote := fun s => "'" +:+ s +:+ "'";
     s3_GetObject := fun _ _ =>
       match cached with
       | Some _ => GetObject_ok []
       | None => GetObject_error true (foreignError "NoSuchKey")
       end;
     s3_PutObject := fun _ _ _ => None;
     gzip_NewReader := fun b => inl b;
     cbor_Decode := fun _ =>
       match cached with
       | Some es => inl es
       | None => inr (foreignError "EOF")
       end;
     cbor_Encode := fun _ =>
       if encoder_works then inl [] else inr (foreignError "cbor: encode failed");
     gzip_Close := fun b => inl b;
     http_NewRequest := fun _ => None;
     http_Do := fun _ => answer;
     json_Decode := fun _ => inl fetched |}.

Definition ok_response : http_response + go_error :=
  inl {| StatusCode := 200; Body := inl [] |}.

Definition handler (size : Z) : tileCachingHandler :=
  {| logURL := "https://log.example/2023"; tileSize := size;
     s3Prefix := "prefix/"; s3Bucket := "bucket" |}.

Definition get_entries (start end_ : string) : request :=
  {| Path := "/ct/v1/get-entries";
     Query := {[ "start" := [start]; "end" := [end_] ]} |}.

End Scenario.

(** Worlds with a fault, or with a decoder, put on top of another
    world. *)
Module Faults.

(** S3 fails on every read with an error that is not [NoSuchKey]. *)
Definition with_get_error (env : environment) (err : go_error) : environment :=
  {| Quote := Quote env;
     s3_GetObject := fun _ _ => GetObject_error false err;
     s3_PutObject := s3_PutObject env;
     gzip_NewReader := gzip_NewReader env;
     cbor_Decode := cbor_Decode env;
     cbor_Encode := cbor_Encode env;
     gzip_Close := gzip_Close env;
     http_NewRequest := http_NewRequest env;
     http_Do := http_Do env;
     json_Decode := json_Decode env |}.

(** S3 refuses every write. *)
Definition with_put_error (env : environment) (err : go_error) : environment :=
  {| Quote := Quote env;
     s3_GetObject := s3_GetObject env;
     s3_PutObject := fun _ _ _ => Some err;
     gzip_NewReader := gzip_NewReader env;
     cbor_Decode := cbor_Decode env;
     cbor_Encode := cbor_Encode env;
     gzip_Close := gzip_Close env;
     http_NewRequest := http_NewRequest env;
     http_Do := http_Do env;
     json_Decode := json_Decode env |}.

(** The CBOR decoder yields the batch [e]. *)
Definition with_decoder (env : environment) (e : entries) : environment :=
  {| Quote := Quote env;
     s3_GetObject := s3_GetObject env;
     s3_PutObject := s3_PutObject env;
     gzip_NewReader := gzip_NewReader env;
     cbor_Decode := fun _ => inl e;
     cbor_Encode := cbor_Encode env;
     gzip_Close := gzip_Close env;
     http_NewRequest := http_NewRequest env;
     http_Do := http_Do env;
     json_Decode := json_Decode env |}.

End Faults.


(* ================================================================== *)
(** * Properties *)

(** ** Machine integers *)

Lemma wrap_in_range z : Int64.in_range z -> Int64.wrap z = z.
Proof.
  unfold Int64.in_range, Int64.wrap, min_int64, max_int64. intros H.
  rewrite Z.mod_small; lia.
Qed.

Lemma wrap_range z : Int64.in_range (Int64.wrap z).
Proof.
  unfold Int64.in_range, Int64.wrap, min_int64, max_int64.
  pose proof (Z.mod_pos_bound (z + 2 ^ 63) (2 ^ 64) ltac:(lia)). lia.
Qed.

Lemma wrap_above z :
  max_int64 < z <= max_int64 + 2 ^ 64 -> Int64.wrap z = z - 2 ^ 64.
Proof.
  unfold Int64.wrap, max_int64. intros H.
  replace (z + 2 ^ 63) with ((z - 2 ^ 64 + 2 ^ 63) + 1 * 2 ^ 64) by lia.
  rewrite Z.mod_add by lia. rewrite Z.mod_small; lia.
Qed.

(** ** Strings *)

(** Whether the character [c] occurs in [s]. *)
Fixpoint occurs (c : ascii) (s : string) : bool :=
  match s with
  | EmptyString => false
  | String a s' => Ascii.eqb a c || occurs c s'
  end.

Lemma append_cancel_l p a b : p +:+ a = p +:+ b -> a = b.
Proof. induction p as [|c p IH]; simpl; [auto | intros [= H]; auto]. Qed.

(** Two strings that are cut at the first occurrence of a separator
    agree on both sides of it. *)
Lemma append_separator_inj c a b x y :
  occurs c a = false -> occurs c b = false ->
  a +:+ String c x = b +:+ String c y -> a = b /\ x = y.
Proof.
  revert b. induction a as [|a0 a IH]; intros [|b0 b]; simpl.
  - intros _ _ [= ->]. auto.
  - intros _ Hb [= <- _]. rewrite Ascii.eqb_refl in Hb. discriminate.
  - intros Ha _ [= -> _]. rewrite Ascii.eqb_refl in Ha. discriminate.
  - intros Ha Hb [= -> H].
    apply orb_false_iff in Ha as [_ Ha]. apply orb_false_iff in Hb as [_ Hb].
    destruct (IH b Ha Hb H) as [-> ->]. auto.
Qed.

(** ** The [%d] verb *)

Definition sign_or_digit (c : ascii) : bool :=
  Ascii.eqb c "-" || match Strconv.digit c with Some _ => true | None => false end.

Lemma occurs_cons c a s : occurs c (String a s) = Ascii.eqb a c || occurs c s.
Proof. reflexivity. Qed.

Ltac other_char Hc :=
  match goal with
  | |- Ascii.eqb ?a ?c = false =>
      apply Ascii.eqb_neq; intros <-; vm_compute in Hc; discriminate Hc
  end.

Lemma occurs_string_of_uint c d :
  sign_or_digit c = false -> occurs c (NilEmpty.string_of_uint d) = false.
Proof.
  intros Hc.
  induction d; cbn [NilEmpty.string_of_uint]; [reflexivity | ..];
    rewrite occurs_cons, IHd, orb_false_r; other_char Hc.
Qed.

Lemma occurs_Sprintf_d c z :
  sign_or_digit c = false -> occurs c (Sprintf_d z) = false.
Proof.
  intros Hc. unfold Sprintf_d.
  assert (Hu : forall d, occurs c (NilZero.string_of_uint d) = false).
  { intros d. destruct d; try apply (occurs_string_of_uint c _ Hc).
    cbn [NilZero.string_of_uint]. rewrite occurs_cons, orb_false_r. other_char Hc. }
  destruct (Z.to_int z); cbn [NilZero.string_of_int]; auto.
  rewrite occurs_cons, Hu, orb_false_r. other_char Hc.
Qed.

Lemma to_int_proper z : Z.to_int z <> Decimal.Pos Decimal.Nil /\
                        Z.to_int z <> Decimal.Neg Decimal.Nil.
Proof.
  destruct z; simpl; split; try discriminate; intros [= H];
    exact (Unsigned.to_uint_nonnil _ H).
Qed.

(** Different integers are printed differently. *)
Lemma Sprintf_d_inj a b : Sprintf_d a = Sprintf_d b -> a = b.
Proof.
  unfold Sprintf_d. intros H.
  apply (f_equal NilZero.int_of_string) in H.
  destruct (to_int_proper a) as [Ha1 Ha2], (to_int_proper b) as [Hb1 Hb2].
  rewrite !NilZero.isi in H by assumption.
  injection H. apply to_int_inj.
Qed.

(* ================================================================== *)
(** ** [strconv.ParseInt] reads decimal numerals *)

Section ParseInt.
Import Strconv Numeral.

Lemma digit_bound c d : digit c = Some d -> 0 <= d <= 9.
Proof.
  unfold digit. destruct (_ && _) eqn:E; intros [= <-].
  apply andb_prop in E as [E1 E2]. lia.
Qed.

Lemma digits_value_grows s : forall acc v,
  0 <= acc -> digits_value s acc = Some v -> acc <= v.
Proof.
  induction s as [|c s IH]; simpl; intros acc v Hacc.
  - intros [= ->]. lia.
  - destruct (digit c) as [d|] eqn:Hd; [|discriminate].
    intros H. apply digit_bound in Hd. apply IH in H; lia.
Qed.

(** The loop accepts exactly the digit strings whose value, continued
    from [n], still fits 64 bits, and returns that value. *)
Lemma ParseUint_loop_spec s : forall n v,
  0 <= n <= maxUint64 ->
  ParseUint_loop s n = inl v <-> digits_value s n = Some v /\ v <= maxUint64.
Proof.
  unfold maxUint64.
  induction s as [|c s IH]; simpl; intros n v Hn.
  - split; [intros [= <-]; split; [reflexivity | lia] | intros [[= <-] _]; reflexivity].
  - destruct (digit c) as [d|] eqn:Hd; [|split; [discriminate | intros [[=] _]]].
    pose proof (digit_bound _ _ Hd) as Hdb.
    change cutoff10 with 1844674407370955162.
    destruct (Z.leb_spec 1844674407370955162 n) as [Hcut|Hcut].
    + split; [discriminate|]. intros [H Hv].
      apply digits_value_grows in H; lia.
    + rewrite (Z.mod_small (n * 10)) by lia.
      destruct (Z.lt_ge_cases (n * 10 + d) (2 ^ 64)) as [Hfit|Hover].
      * rewrite (Z.mod_small (n * 10 + d)) by lia.
        destruct (Z.ltb_spec (n * 10 + d) (n * 10)) as [?|_]; [lia|].
        destruct (Z.ltb_spec maxUint64 (n * 10 + d)) as [Hmax|_];
          [unfold maxUint64 in Hmax; lia|].
        cbn [orb]. replace (10 * n + d) with (n * 10 + d) by lia.
        apply IH. lia.
      * replace ((n * 10 + d) mod 2 ^ 64) with (n * 10 + d - 2 ^ 64).
        2:{ symmetry. replace (n * 10 + d) with ((n * 10 + d - 2 ^ 64) + 1 * 2 ^ 64) at 1 by lia.
            rewrite Z.mod_add by lia. apply Z.mod_small. lia. }
        destruct (Z.ltb_spec (n * 10 + d - 2 ^ 64) (n * 10)); [|lia].
        cbn [orb]. split; [discriminate|]. intros [Hval Hv].
        apply digits_value_grows in Hval; lia.
Qed.

Lemma ParseUint_spec s v :
  ParseUint s = inl v <-> unsigned_value s = Some v /\ 0 <= v <= maxUint64.
Proof.
  destruct s as [|c s]; [split; [discriminate | intros [[=] _]]|].
  unfold ParseUint, unsigned_value.
  rewrite ParseUint_loop_spec by (unfold maxUint64; lia).
  split; intros [H Hv]; repeat split; try assumption; try lia.
  apply digits_value_grows in H; lia.
Qed.

(** After the sign is set aside, [check_range] accepts exactly the
    values that are int64s. *)
Lemma check_range_spec (neg : bool) s v :
  check_range neg (ParseUint s) = inl v <->
  exists u, unsigned_value s = Some u /\ v = (if neg then - u else u)
            /\ Int64.in_range v.
Proof.
  unfold check_range, Int64.in_range, Int64.min_int64, Int64.max_int64.
  destruct (ParseUint s) as [u|e] eqn:E.
  - apply ParseUint_spec in E as [E Hu]. unfold maxUint64 in Hu.
    rewrite E.
    assert (Hiff : forall P : Z -> Prop, (exists u', Some u = Some u' /\ P u') <-> P u).
    { intros P. split; [intros (u' & [= <-] & H); exact H | intros H; exists u; auto]. }
    rewrite (Hiff (fun u' => v = (if neg then - u' else u') /\ - 2 ^ 63 <= v <= 2 ^ 63 - 1)).
    destruct neg; cbn [negb andb].
    + destruct (Z.ltb_spec (2 ^ 63) u) as [Hlt|Hle].
      * split; [discriminate | lia].
      * destruct (Z.eq_dec u (2 ^ 63)) as [->|Hne].
        -- assert (Hw : Int64.wrap (- Int64.wrap (2 ^ 63)) = - 2 ^ 63) by (vm_compute; reflexivity).
           rewrite Hw. split; [intros [= <-]; lia | intros [-> _]; reflexivity].
        -- rewrite (wrap_in_range u)
             by (unfold Int64.in_range, Int64.min_int64, Int64.max_int64; lia).
           rewrite (wrap_in_range (- u))
             by (unfold Int64.in_range, Int64.min_int64, Int64.max_int64; lia).
           split; [intros [= <-]; lia | intros [-> _]; reflexivity].
    + destruct (Z.leb_spec (2 ^ 63) u) as [Hle|Hlt].
      * split; [discriminate | lia].
      * rewrite (wrap_in_range u)
          by (unfold Int64.in_range, Int64.min_int64, Int64.max_int64; lia).
        split; [intros [= <-]; lia | intros [-> _]; reflexivity].
  - assert (Hno : forall u, unsigned_value s = Some u -> maxUint64 < u).
    { intros u Hu. destruct (Z.lt_ge_cases maxUint64 u) as [|Hle]; [assumption|].
      assert (Hok : ParseUint s = inl u).
      { apply ParseUint_spec. split; [assumption|].
        split; [|lia]. destruct s; [discriminate|].
        apply digits_value_grows in Hu; lia. }
      congruence. }
    split.
    + intros H. exfalso. destruct e; [discriminate|].
      destruct neg; vm_compute in H; discriminate.
    + intros (u & Hu & -> & Hr). apply Hno in Hu. unfold maxUint64 in Hu.
      destruct neg; lia.
Qed.

(** [ParseInt] succeeds exactly on the numerals whose value is an
    int64, and returns that value. *)
Lemma ParseInt_spec s v :
  ParseInt s = inl v <-> numeral_value s = Some v /\ Int64.in_range v.
Proof.
  destruct s as [|c s]; [split; [discriminate | intros [[=] _]]|].
  unfold ParseInt, numeral_value.
  destruct (Ascii.eqb_spec c "+") as [->|Hplus].
  - change (Ascii.eqb "+" "-") with false. cbn [orb].
    rewrite check_range_spec. split.
    + intros (u & -> & -> & H). auto.
    + intros [H Hr]. exists v. auto.
  - destruct (Ascii.eqb_spec c "-") as [->|Hminus]; cbn [orb];
      rewrite check_range_spec.
    + split.
      * intros (u & -> & -> & H). auto.
      * intros [H Hr]. destruct (unsigned_value s) as [u|]; [|discriminate].
        injection H as <-. exists u. auto.
    + split.
      * intros (u & -> & -> & H). auto.
      * intros [H Hr]. exists v. auto.
Qed.

End ParseInt.

(* ================================================================== *)
(** ** Tile addressing *)

Lemma makeTile_start (start size : Z) (logURL : string) :
  0 < size -> 0 <= start <= max_int64 ->
  tile_start (makeTile start size logURL) = start - start mod size.
Proof.
  intros Hsize Hstart. unfold makeTile, Int64.sub, Int64.rem. cbn [tile_start].
  rewrite Z.rem_mod_nonneg by lia.
  pose proof (Z.mod_pos_bound start size Hsize).
  pose proof (Z.mod_le start size ltac:(lia) Hsize).
  apply wrap_in_range. unfold Int64.in_range, Int64.min_int64, Int64.max_int64 in *. lia.
Qed.

Lemma makeTile_offset (start size : Z) (logURL : string) :
  0 < size -> 0 <= start <= max_int64 ->
  sub64 start (tile_start (makeTile start size logURL)) = start mod size.
Proof.
  intros Hsize Hstart. rewrite makeTile_start by assumption.
  pose proof (Z.mod_pos_bound start size Hsize).
  pose proof (Z.mod_le start size ltac:(lia) Hsize).
  unfold Int64.sub. replace (start - (start - start mod size)) with (start mod size) by lia.
  apply wrap_in_range. unfold Int64.in_range, Int64.min_int64, Int64.max_int64 in *. lia.
Qed.

(** For every size > 0 and every requested start >= 0
    (both int64), the tile of [makeTile] starts at or below the requested
    start, on a non-negative multiple of the size; and whenever the end
    of that tile, [tile.start + size], is still an int64, the requested
    start lies below [tile.end] and [tile.end = tile.start + size]. *)
Theorem makeTile_aligned (start size : Z) (logURL : string) :
  0 < size <= max_int64 -> 0 <= start <= max_int64 ->
  let t := makeTile start size logURL in
  tile_start t <= start /\ tile_start t mod size = 0 /\ 0 <= tile_start t /\
  tile_size t = size /\
  (tile_start t + size <= max_int64 ->
   start < tile_end t /\ tile_end t = tile_start t + size).
Proof.
  intros [Hsize Hsmax] Hstart t.
  pose proof (makeTile_start start size logURL Hsize Hstart) as Hts.
  fold t in Hts.
  pose proof (Z.mod_pos_bound start size Hsize) as Hmod.
  assert (Hge : 0 <= start - start mod size).
  { pose proof (Z.mod_le start size ltac:(lia) Hsize). lia. }
  repeat split; try (rewrite Hts; lia).
  - rewrite Hts. rewrite Zminus_mod, Z.mod_mod, Z.sub_diag by lia.
    apply Z.mod_0_l. lia.
  - assert (He : tile_end t = tile_start t + size).
    { unfold t at 1, makeTile; cbn [tile_end]. fold (tile_start t) in *.
      change (sub64 start (rem64 start size)) with (tile_start t).
      apply wrap_in_range.
      unfold Int64.in_range, Int64.min_int64, Int64.max_int64 in *. lia. }
    rewrite He, Hts. lia.
  - unfold t at 1, makeTile; cbn [tile_end].
    change (sub64 start (rem64 start size)) with (tile_start t).
    apply wrap_in_range.
    unfold Int64.in_range, Int64.min_int64, Int64.max_int64 in *. lia.
Qed.

Lemma makeTile_aligned_witness :
  let t := makeTile 1234 1000 "https://log.example/2023" in
  tile_start t <= 1234 /\ tile_start t mod 1000 = 0 /\ 0 <= tile_start t /\
  tile_size t = 1000 /\ 1234 < tile_end t /\ tile_end t = tile_start t + 1000.
Proof.
  pose proof (makeTile_aligned 1234 1000 "https://log.example/2023") as H.
  destruct H as (H1 & H2 & H3 & H4 & H5).
  - unfold Int64.max_int64. lia.
  - unfold Int64.max_int64. lia.
  - destruct H5 as [H5 H6].
    + vm_compute. discriminate.
    + repeat split; assumption.
Defined.

(** C4.  In the last tile of the int64 range [tileStart + size] wraps
    around: for the requested start 2^63-1 and size 1000 the end of the
    tile that [makeTile] returns is negative, below the requested start,
    and is not the tile's start plus its size. *)
Lemma makeTile_end_wraps :
  let t := makeTile max_int64 1000 "https://log.example/2023" in
  0 < 1000 /\ 0 <= max_int64 /\
  tile_start t = 9223372036854775000 /\ tile_end t = -9223372036854775616 /\
  ~ (max_int64 < tile_end t) /\ tile_end t <> tile_start t + 1000.
Proof. vm_compute. repeat split; try discriminate; intros [=]. Qed.

Lemma key_fields (t : tile) :
  key t = "tile_size=" +:+ Sprintf_d (tile_size t)
            +:+ String "/" (Sprintf_d (tile_start t) +:+ String "." "cbor.gz").
Proof. reflexivity. Qed.

(** C7.  The storage key is a function of (size, start) alone, and an
    injective one: two tiles have the same key exactly when they have
    the same size and the same start. *)
Theorem key_injective (t1 t2 : tile) :
  key t1 = key t2 <->
  tile_size t1 = tile_size t2 /\ tile_start t1 = tile_start t2.
Proof.
  split.
  - rewrite !key_fields. intros H. apply append_cancel_l in H.
    apply append_separator_inj in H as [Hsize H];
      try (apply occurs_Sprintf_d; reflexivity).
    apply append_separator_inj in H as [Hstart _];
      try (apply occurs_Sprintf_d; reflexivity).
    split; apply Sprintf_d_inj; assumption.
  - intros [Hsize Hstart]. unfold key. rewrite Hsize, Hstart. reflexivity.
Qed.

(** For every tile whose end is an int64 above the least one (as is
    the end of every tile that satisfies the tile invariants), the
    upstream URL is [<logURL>/ct/v1/get-entries?start=<start>&end=<end-1>]:
    the half-open [[start, end)] becomes the closed [[start, end-1]]. *)
Theorem url_closed_interval (t : tile) :
  min_int64 < tile_end t <= max_int64 ->
  url t = tile_logURL t +:+ "/ct/v1/get-entries?start=" +:+ Sprintf_d (tile_start t)
            +:+ "&end=" +:+ Sprintf_d (tile_end t - 1).
Proof.
  intros H. unfold url, Int64.sub. rewrite wrap_in_range; [reflexivity|].
  unfold Int64.in_range, Int64.min_int64, Int64.max_int64 in *. lia.
Qed.

Lemma url_closed_interval_witness :
  url (makeTile 1234 1000 "https://log.example/2023")
  = "https://log.example/2023/ct/v1/get-entries?start=1000&end=1999".
Proof.
  rewrite (url_closed_interval (makeTile 1234 1000 "https://log.example/2023")).
  - reflexivity.
  - vm_compute. split; [reflexivity | discriminate].
Defined.

Lemma tile_invariant_end (t : tile) :
  tile_invariant t -> Int64.in_range (tile_end t) -> min_int64 < tile_end t <= max_int64.
Proof.
  unfold tile_invariant, Int64.in_range, Int64.min_int64, Int64.max_int64. lia.
Qed.

(* ================================================================== *)
(** ** Query parameters *)

Lemma nonneg_int64_numeral_ParseInt s n :
  nonneg_int64_numeral s n <-> Strconv.ParseInt s = inl n /\ 0 <= n.
Proof.
  unfold nonneg_int64_numeral. rewrite ParseInt_spec.
  unfold Int64.in_range, Int64.min_int64, Int64.max_int64. intuition lia.
Qed.

Lemma nonneg_int64_numeral_fun s n m :
  nonneg_int64_numeral s n -> nonneg_int64_numeral s m -> n = m.
Proof. intros [H1 _] [H2 _]. congruence. Qed.

Lemma nonneg_int64_numeral_nonempty s n : nonneg_int64_numeral s n -> s <> EmptyString.
Proof. intros [H _] ->. discriminate. Qed.

(** What [parseQueryParams] returns, case by case. *)
Lemma parseQueryParams_cases (values : gmap string (list string)) :
  let start := Values_Get values "start" in
  let end_ := Values_Get values "end" in
  match parseQueryParams values with
  | inl (a, q) =>
      exists b, nonneg_int64_numeral start a /\ nonneg_int64_numeral end_ b /\
                a <= b /\ q = add64 b 1
  | inr err =>
      (start = EmptyString /\ err = errorString "missing start parameter") \/
      (start <> EmptyString /\
       (end_ = EmptyString \/
        (~ exists a, nonneg_int64_numeral start a) \/
        (~ exists b, nonneg_int64_numeral end_ b) \/
        (exists a b, nonneg_int64_numeral start a /\ nonneg_int64_numeral end_ b /\ b < a)))
  end.
Proof.
  intros start end_. unfold parseQueryParams. fold start end_.
  destruct (String.eqb_spec start EmptyString) as [Hs|Hs]; [left; auto|].
  destruct (String.eqb_spec end_ EmptyString) as [He|He]; [right; auto|].
  destruct (Strconv.ParseInt start) as [a|e1] eqn:Ea.
  2:{ right. split; [assumption|]. right. left. intros (a & Ha).
      apply nonneg_int64_numeral_ParseInt in Ha as [Ha _]. congruence. }
  destruct (Z.ltb_spec a 0) as [Hneg|Hpos].
  { right. split; [assumption|]. right. left. intros (a' & Ha).
    apply nonneg_int64_numeral_ParseInt in Ha as [Ha Hge]. rewrite Ea in Ha.
    injection Ha as ->. lia. }
  assert (Ha : nonneg_int64_numeral start a)
    by (apply nonneg_int64_numeral_ParseInt; auto).
  destruct (Strconv.ParseInt end_) as [b|e2] eqn:Eb.
  2:{ right. split; [assumption|]. right. right. left. intros (b & Hb).
      apply nonneg_int64_numeral_ParseInt in Hb as [Hb _]. congruence. }
  destruct (Z.ltb_spec b 0) as [Hbneg|Hbpos].
  { right. split; [assumption|]. right. right. left. intros (b' & Hb).
    apply nonneg_int64_numeral_ParseInt in Hb as [Hb Hge]. rewrite Eb in Hb.
    injection Hb as ->. lia. }
  assert (Hb : nonneg_int64_numeral end_ b)
    by (apply nonneg_int64_numeral_ParseInt; auto).
  destruct (Z.ltb_spec b a) as [Hlt|Hle].
  - right. split; [assumption|]. do 3 right. exists a, b. auto.
  - exists b. auto.
Qed.

Lemma add64_one b : 0 <= b < max_int64 -> add64 b 1 = b + 1.
Proof.
  intros H. apply wrap_in_range.
  unfold Int64.in_range, Int64.min_int64, Int64.max_int64 in *. lia.
Qed.

(** [parseQueryParams] fails exactly when start or end
    is missing (absent or empty), is not a decimal numeral with a value
    in [0 .. 2^63-1], or end < start; on every accepted input the first
    result is the value of start and, when the value of end is below
    2^63-1, the second result is that value plus one; when start is
    missing the error message is "missing start parameter". *)
Theorem parseQueryParams_spec (values : gmap string (list string)) :
  let start := Values_Get values "start" in
  let end_ := Values_Get values "end" in
  ((exists err, parseQueryParams values = inr err) <->
     start = EmptyString \/ end_ = EmptyString \/
     (~ exists a, nonneg_int64_numeral start a) \/
     (~ exists b, nonneg_int64_numeral end_ b) \/
     (exists a b, nonneg_int64_numeral start a /\ nonneg_int64_numeral end_ b /\ b < a))
  /\ (forall a q, parseQueryParams values = inl (a, q) ->
        nonneg_int64_numeral start a /\
        exists b, nonneg_int64_numeral end_ b /\ a <= b /\
                  (b < max_int64 -> q = b + 1))
  /\ (start = EmptyString ->
        exists err, parseQueryParams values = inr err /\
                    forall Quote, Error Quote err = "missing start parameter").
Proof.
  intros start end_.
  pose proof (parseQueryParams_cases values) as Hc. cbv zeta in Hc.
  fold start end_ in Hc.
  split; [split|split].
  - intros [err Herr]. rewrite Herr in Hc.
    destruct Hc as [[Hs _]|[_ Hc]]; [left; assumption | right; assumption].
  - intros Hbad. destruct (parseQueryParams values) as [[a q]|err]; [|eauto].
    exfalso. destruct Hc as (b & Ha & Hb & Hab & _).
    destruct Hbad as [Hs|[He|[Hna|[Hnb|(a' & b' & Ha' & Hb' & Hlt)]]]].
    + exact (nonneg_int64_numeral_nonempty _ _ Ha Hs).
    + exact (nonneg_int64_numeral_nonempty _ _ Hb He).
    + apply Hna. eauto.
    + apply Hnb. eauto.
    + rewrite (nonneg_int64_numeral_fun _ _ _ Ha Ha') in Hab.
      rewrite (nonneg_int64_numeral_fun _ _ _ Hb Hb') in Hab. lia.
  - intros a q Hok. rewrite Hok in Hc. destruct Hc as (b & Ha & Hb & Hab & ->).
    split; [assumption|]. exists b.
    split; [assumption|]. split; [assumption|].
    intros Hmax. apply add64_one. destruct Hb as [_ Hb]. lia.
  - intros Hs. unfold parseQueryParams. fold start. rewrite Hs. cbn.
    eexists. split; [reflexivity|]. intros Quote. reflexivity.
Qed.

(** C6.  At the largest end the addition [endInt + 1] wraps around: the
    accepted input start=5, end=2^63-1 returns the end -2^63, which is
    not the end of the request plus one. *)
Lemma parseQueryParams_not_successor :
  let values : gmap string (list string) :=
    {[ "start" := ["5"%string]; "end" := ["9223372036854775807"%string] ]} in
  nonneg_int64_numeral (Values_Get values "start") 5 /\
  nonneg_int64_numeral (Values_Get values "end") 9223372036854775807 /\
  parseQueryParams values = inl (5, -9223372036854775808) /\
  -9223372036854775808 <> 9223372036854775807 + 1.
Proof.
  vm_compute. repeat split; try discriminate; intros [=].
Qed.

(** C10.  On the accepted input start=0, end=2^63-1 the returned end is
    the least int64, below the returned start: the addition [endInt + 1]
    wraps around. *)
Theorem parseQueryParams_end_wraps :
  exists start end_,
    parseQueryParams {[ "start" := ["0"%string];
                        "end" := ["9223372036854775807"%string] ]}
    = inl (start, end_) /\
    start = 0 /\ end_ = min_int64 /\ ~ start < end_ /\ sub64 end_ start < 0.
Proof.
  exists 0, min_int64. vm_compute. repeat split; discriminate.
Qed.

(** The requested length [end - start] that the handler computes from an
    accepted request is the number of positions in the closed interval of
    the request, but for the one request that covers all of the int64
    range. *)
Lemma requested_length (values : gmap string (list string)) a q :
  parseQueryParams values = inl (a, q) ->
  exists b, nonneg_int64_numeral (Values_Get values "end") b /\ a <= b /\
            0 <= a <= max_int64 /\
            ((a = 0 /\ b = max_int64 /\ sub64 q a = min_int64) \/
             (~ (a = 0 /\ b = max_int64) /\ sub64 q a = b - a + 1 /\ 0 < sub64 q a)).
Proof.
  intros Hok. pose proof (parseQueryParams_cases values) as Hc. cbv zeta in Hc.
  rewrite Hok in Hc. destruct Hc as (b & Ha & Hb & Hab & ->).
  exists b. split; [assumption|]. split; [assumption|].
  destruct Ha as [_ Ha]. split; [assumption|].
  destruct Hb as [_ Hb]. unfold Int64.max_int64 in *.
  destruct (Z.eq_dec b (2 ^ 63 - 1)) as [->|Hne].
  - assert (Hw : add64 (2 ^ 63 - 1) 1 = - 2 ^ 63) by (vm_compute; reflexivity).
    rewrite Hw.
    destruct (Z.eq_dec a 0) as [->|Hnz].
    + left. split; [reflexivity|]. split; [reflexivity|]. vm_compute. reflexivity.
    + right. split; [lia|].
      assert (E : sub64 (- 2 ^ 63) a = 2 ^ 63 - 1 - a + 1).
      { unfold Int64.sub, Int64.wrap.
        replace (- 2 ^ 63 - a + 2 ^ 63) with ((2 ^ 64 - a) + (-1) * 2 ^ 64) by lia.
        rewrite Z.mod_add by lia. rewrite Z.mod_small; lia. }
      rewrite E. lia.
  - right. split; [lia|]. rewrite add64_one by (unfold Int64.max_int64; lia).
    unfold Int64.sub. rewrite wrap_in_range;
      unfold Int64.in_range, Int64.min_int64, Int64.max_int64; lia.
Qed.

(* ================================================================== *)
(** ** The adapters *)

Lemma len_nonneg {A} (l : list A) : 0 <= len l.
Proof. unfold len. lia. Qed.

(** A batch that comes out of the cache is a full tile. *)
Lemma getFromS3_full env tch t contents :
  getFromS3 env tch t = inl contents ->
  len (Entries contents) = tile_size t /\
  tile_end t = add64 (tile_start t) (tile_size t).
Proof.
  unfold getFromS3.
  destruct (s3_GetObject env _ _) as [[|] err|body]; try discriminate.
  destruct (gzip_NewReader env body) as [stream|err]; [|discriminate].
  destruct (cbor_Decode env stream) as [es|err]; [|discriminate].
  destruct (Z.eqb_spec (len (Entries es)) (tile_size t)) as [Hlen|]; [|discriminate].
  destruct (Z.eqb_spec (tile_end t) (add64 (tile_start t) (tile_size t))) as [Hend|];
    [|discriminate].
  cbn. intros [= <-]. auto.
Qed.

(** A batch that comes from the backend has between 1 and [size]
    entries. *)
Lemma getTileFromBackend_length env t contents :
  getTileFromBackend env t = inl contents ->
  0 < len (Entries contents) <= tile_size t.
Proof.
  unfold getTileFromBackend.
  destruct (http_NewRequest env _); [discriminate|].
  destruct (http_Do env _) as [resp|]; [|discriminate].
  destruct (negb _); [destruct (Body resp); discriminate|].
  destruct (match Body resp with inl b => _ | inr e => _ end) as [es|]; [|discriminate].
  destruct (Z.ltb_spec (tile_size t) (len (Entries es))); [discriminate|].
  destruct (Z.eqb_spec (len (Entries es)) 0); [discriminate|].
  cbn. intros [= <-]. pose proof (len_nonneg (Entries es)). lia.
Qed.

Lemma getTileFromBackend_refused env t resp body :
  http_NewRequest env (url t) = None ->
  http_Do env (url t) = inl resp ->
  StatusCode resp <> 200 -> Body resp = inl body ->
  getTileFromBackend env t = inr (statusCodeError (StatusCode resp) body).
Proof.
  intros Hreq Hdo Hcode Hbody. unfold getTileFromBackend.
  rewrite Hreq, Hdo, Hbody.
  destruct (Z.eqb_spec (StatusCode resp) 200); [contradiction | reflexivity].
Qed.

(** [writeToS3] calls [PutObject] only with the encoding of a full
    batch, under the key of its tile. *)
Lemma writeToS3_puts env tch t contents ev :
  In ev (snd (writeToS3 env tch t contents)) ->
  len (Entries contents) = tile_size t /\
  exists raw body, cbor_Encode env contents = inl raw /\
                   gzip_Close env raw = inl body /\
                   ev = PutObjectCall (s3Bucket tch) (s3Prefix tch +:+ key t) body.
Proof.
  unfold writeToS3.
  destruct (Z.eqb_spec (len (Entries contents)) (tile_size t)) as [Hlen|]; [|intros []].
  destruct (Z.eqb_spec (tile_end t) (add64 (tile_start t) (tile_size t))); [|intros []].
  cbn [negb orb].
  destruct (cbor_Encode env contents) as [raw|] eqn:Henc; [|intros []].
  destruct (gzip_Close env raw) as [body|] eqn:Hzip; [|intros []].
  destruct (s3_PutObject env _ _ _); cbn; intros [<-|[]];
    (split; [assumption|]; exists raw, body; auto).
Qed.

Lemma writeToS3_only_puts env tch t contents :
  cache_writes (snd (writeToS3 env tch t contents)) = snd (writeToS3 env tch t contents).
Proof.
  unfold writeToS3.
  repeat match goal with
         | |- context [if ?b then _ else _] => destruct b
         | |- context [match ?x with _ => _ end] => destruct x
         end; reflexivity.
Qed.

(* ================================================================== *)
(** ** The response writer *)

Lemma checkWriteHeaderCode_spec code :
  checkWriteHeaderCode code = true <-> 100 <= code <= 999.
Proof. unfold checkWriteHeaderCode. rewrite andb_true_iff. lia. Qed.

Lemma respond_trace code c w tr : trace (respond code c w tr) = tr.
Proof. unfold respond. destruct (WriteHeader code w); reflexivity. Qed.

(** On a writer that has no status yet, a valid code is the status of
    the response and the body is appended. *)
Lemma respond_valid code c w tr :
  100 <= code <= 999 -> status w = None ->
  respond code c w tr
  = finish {| Header := Header w; status := Some code; written := written w ++ [c] |} tr.
Proof.
  intros Hcode Hfresh. unfold respond, WriteHeader.
  apply checkWriteHeaderCode_spec in Hcode. rewrite Hcode.
  unfold Write. cbn. rewrite Hfresh. reflexivity.
Qed.

(** An invalid code makes [WriteHeader] panic: nothing is written. *)
Lemma respond_invalid code c w tr :
  ~ 100 <= code <= 999 -> respond code c w tr = panic w tr.
Proof.
  intros Hcode. unfold respond, WriteHeader.
  destruct (checkWriteHeaderCode code) eqn:E; [|reflexivity].
  apply checkWriteHeaderCode_spec in E. contradiction.
Qed.

Lemma respond_cases code c w tr :
  status w = None ->
  (100 <= code <= 999 /\
   respond code c w tr
   = finish {| Header := Header w; status := Some code; written := written w ++ [c] |} tr)
  \/ (~ 100 <= code <= 999 /\ respond code c w tr = panic w tr).
Proof.
  intros Hfresh.
  destruct (checkWriteHeaderCode code) eqn:E.
  - apply checkWriteHeaderCode_spec in E. left. split; [assumption|].
    apply respond_valid; assumption.
  - right. assert (Hbad : ~ 100 <= code <= 999).
    { intros H. apply checkWriteHeaderCode_spec in H. congruence. }
    split; [assumption|]. apply respond_invalid. assumption.
Qed.

(* ================================================================== *)
(** ** Truncation *)

Lemma slice_from_inside {A} (s : list A) i :
  0 <= i <= len s -> slice_from s i = Some (drop (Z.to_nat i) s).
Proof.
  intros H. unfold slice_from.
  destruct (Z.ltb_spec i 0); [lia|]. destruct (Z.ltb_spec (len s) i); [lia|]. reflexivity.
Qed.

Lemma slice_to_inside {A} (s : list A) j :
  0 <= j <= len s -> slice_to s j = Some (take (Z.to_nat j) s).
Proof.
  intros H. unfold slice_to.
  destruct (Z.ltb_spec j 0); [lia|]. destruct (Z.ltb_spec (len s) j); [lia|]. reflexivity.
Qed.

Lemma slice_to_negative {A} (s : list A) j : j < 0 -> slice_to s j = None.
Proof. intros H. unfold slice_to. destruct (Z.ltb_spec j 0); [reflexivity | lia]. Qed.

Lemma len_drop {A} (s : list A) i : 0 <= i <= len s -> len (drop (Z.to_nat i) s) = len s - i.
Proof. unfold len. rewrite length_drop. lia. Qed.

Lemma len_take {A} (s : list A) j : 0 <= j <= len s -> len (take (Z.to_nat j) s) = j.
Proof. unfold len. rewrite length_take. lia. Qed.

Section Truncate.
Variables (w : ResponseWriter) (tr : list event) (start end_ : Z) (t : tile).
Variable contents : entries.

Lemma truncate_trace : trace (truncateAndRespond w tr start end_ t contents) = tr.
Proof.
unfold truncateAndRespond.
destruct (_ <=? _); [reflexivity|].
destruct (slice_from _ _); [|reflexivity].
destruct (if _ <? _ then _ else _); reflexivity.
Qed.

Lemma truncate_header k :
k <> "X-Response-Len"%string ->
Header (response (truncateAndRespond w tr start end_ t contents)) !! k = Header w !! k.
Proof.
intros Hk. unfold truncateAndRespond.
destruct (_ <=? _); [reflexivity|].
destruct (slice_from _ _); [|reflexivity].
destruct (if _ <? _ then _ else _); [|reflexivity].
cbn. apply lookup_insert_ne. congruence.
Qed.

Hypothesis fresh : status w = None.

(** The requested start is past the end of the batch: 400. *)
Lemma truncate_past_end :
let out := truncateAndRespond w tr start end_ t contents in
len (Entries contents) <= sub64 start (tile_start t) ->
outcome out = Returned /\ status (response out) = Some 400 /\
written (response out)
= written w ++ [Text "requested range is past the end of the log"].
Proof.
intros out H. unfold out, truncateAndRespond.
destruct (Z.leb_spec (len (Entries contents)) (sub64 start (tile_start t))); [|lia].
cbn. rewrite fresh. auto.
Qed.

(** The requested start is inside the batch and the requested length
  is not negative: 200, with the entries from the prefix on, at most
  as many as requested. *)
Lemma truncate_within :
let out := truncateAndRespond w tr start end_ t contents in
let batch := Entries contents in
let prefix := sub64 start (tile_start t) in
let count := Z.min (sub64 end_ start) (len batch - prefix) in
let served := take (Z.to_nat count) (drop (Z.to_nat prefix) batch) in
0 <= prefix < len batch -> 0 <= sub64 end_ start ->
outcome out = Returned /\ status (response out) = Some 200 /\
written (response out) = written w ++ [JSON {| Entries := served |}] /\
Header (response out) !! "X-Response-Len" = Some (Sprintf_d count) /\
len served = count.
Proof.
intros out batch prefix count served Hp Hn.
set (requestedLen := sub64 end_ start) in *.
assert (Hserved : len served = count).
{ unfold served. rewrite len_take; [reflexivity|].
  rewrite len_drop by lia. unfold count. lia. }
unfold out, truncateAndRespond. fold prefix batch requestedLen.
destruct (Z.leb_spec (len batch) prefix); [lia|].
rewrite slice_from_inside by lia.
rewrite len_drop by lia.
destruct (Z.ltb_spec requestedLen (len batch - prefix)) as [Hlt|Hge].
- rewrite slice_to_inside by (rewrite len_drop; lia).
  assert (Hc : count = requestedLen) by (unfold count; lia).
  cbn. rewrite fresh. fold served. unfold served at 1 2. rewrite Hc.
  rewrite lookup_insert_eq, len_take by (rewrite len_drop; lia). auto.
- assert (Hc : count = len batch - prefix) by (unfold count; lia).
  assert (Hall : served = drop (Z.to_nat prefix) batch).
  { unfold served. apply take_ge. rewrite length_drop. unfold len in *. lia. }
  cbn. rewrite fresh, lookup_insert_eq, <- Hall, Hserved. auto.
Qed.

(** The requested start is inside the batch but the requested length
  is negative: slicing panics before anything is written. *)
Lemma truncate_negative_length :
let out := truncateAndRespond w tr start end_ t contents in
0 <= sub64 start (tile_start t) < len (Entries contents) ->
sub64 end_ start < 0 ->
outcome out = Panicked /\ response out = w.
Proof.
intros out Hp Hn. unfold out, truncateAndRespond.
set (prefix := sub64 start (tile_start t)) in *.
set (batch := Entries contents) in *.
destruct (Z.leb_spec (len batch) prefix); [lia|].
rewrite slice_from_inside by lia.
pose proof (len_nonneg (drop (Z.to_nat prefix) batch)).
destruct (Z.ltb_spec (sub64 end_ start) (len (drop (Z.to_nat prefix) batch))); [|lia].
rewrite slice_to_negative by assumption. auto.
Qed.
End Truncate.

(* ================================================================== *)
(** ** The handler, phase by phase *)

Section Serve.
Variable env : environment.
Variable tch : tileCachingHandler.
Variable r : request.
Variables start end_ : Z.

(** An accepted start is a non-negative int64. *)
Lemma accepted_start :
  accepted tch r start end_ -> 0 <= start <= max_int64.
Proof.
  intros (_ & Hparse & _).
  pose proof (parseQueryParams_cases (Query r)) as Hc. cbv zeta in Hc.
  rewrite Hparse in Hc. destruct Hc as (b & [_ Ha] & _). exact Ha.
Qed.

(** On a cache hit the handler goes straight to the truncation. *)
Lemma ServeHTTP_cache_hit contents :
  cache_hit env tch r start end_ contents ->
  ServeHTTP env tch r
  = truncateAndRespond (Header_Set "X-Source" "S3" newResponseWriter)
      [GetObjectCall (s3Bucket tch) (s3Prefix tch +:+ key (tile_of tch start))]
      start end_ (tile_of tch start) contents.
Proof.
  intros [(Hpath & Hparse & Hsize) Hget]. unfold ServeHTTP, tile_of in *.
  rewrite Hpath, Hparse. cbn [negb].
  destruct (Z.eqb_spec (tileSize tch) 0); [contradiction|].
  rewrite Hget. reflexivity.
Qed.

(** On a cache miss the handler asks the backend. *)
Lemma ServeHTTP_cache_miss :
  cache_miss env tch r start end_ ->
  let t := tile_of tch start in
  let w := newResponseWriter in
  let tr := [GetObjectCall (s3Bucket tch) (s3Prefix tch +:+ key t); BackendCall (url t)] in
  ServeHTTP env tch r
  = match getTileFromBackend env t with
    | inr err =>
        let status :=
          match errors_As_statusCodeError err with
          | Some (code, _) => code
          | None => StatusInternalServerError
          end in
        respond status (Text (Error (Quote env) err +:+ nl)) w tr
    | inl contents =>
        if len (Entries contents) =? tileSize tch then
          match fst (writeToS3 env tch t contents) with
          | Some err =>
              respond StatusInternalServerError
                (Text ("writing to s3: " +:+ Error (Quote env) err +:+ nl)) w
                (tr ++ writeToS3Call t contents :: snd (writeToS3 env tch t contents))
          | None =>
              truncateAndRespond (Header_Set "X-Source" "CT log" w)
                (tr ++ writeToS3Call t contents :: snd (writeToS3 env tch t contents))
                start end_ t contents
          end
        else
          truncateAndRespond
            (Header_Set "X-Source" "CT log" (Header_Set "X-Partial-Tile" "true" w))
            tr start end_ t contents
    end.
Proof.
  intros [(Hpath & Hparse & Hsize) (err & Hget & Hnsk)] t w tr.
  subst t w tr. unfold ServeHTTP, tile_of in *.
  rewrite Hpath, Hparse. cbn [negb].
  destruct (Z.eqb_spec (tileSize tch) 0); [contradiction|].
  rewrite Hget, Hnsk. cbn [negb].
  destruct (getTileFromBackend env _) as [contents|berr]; [|reflexivity].
  destruct (len (Entries contents) =? tileSize tch); [|reflexivity].
  destruct (writeToS3 env tch _ contents) as [[werr|] puts]; reflexivity.
Qed.

(** A batch from the cache covers the requested start: the offset of
    the start in its tile is below the length of the batch. *)
Lemma cache_hit_covers contents :
  cache_hit env tch r start end_ contents ->
  0 < tileSize tch /\ len (Entries contents) = tileSize tch /\
  0 <= sub64 start (tile_start (tile_of tch start)) < len (Entries contents).
Proof.
  intros [Hacc Hget]. pose proof (accepted_start Hacc) as Hstart.
  destruct Hacc as (_ & _ & Hsize).
  apply getFromS3_full in Hget as [Hlen _]. cbn [tile_of makeTile tile_size] in Hlen.
  pose proof (len_nonneg (Entries contents)).
  assert (Hpos : 0 < tileSize tch) by lia.
  unfold tile_of. rewrite makeTile_offset by assumption.
  pose proof (Z.mod_pos_bound start (tileSize tch) Hpos). lia.
Qed.

(** A cache hit is never answered with the 400 of the out-of-range
    branch; it is answered with 200 whenever the requested length
    [end - start] is not negative, and panics otherwise. *)
Lemma cache_hit_served contents :
  cache_hit env tch r start end_ contents ->
  let out := ServeHTTP env tch r in
  status (response out) <> Some 400 /\
  (0 <= sub64 end_ start -> outcome out = Returned /\ status (response out) = Some 200) /\
  (sub64 end_ start < 0 -> outcome out = Panicked /\ status (response out) = None).
Proof.
  intros Hhit out. unfold out. rewrite (ServeHTTP_cache_hit contents Hhit).
  destruct (cache_hit_covers contents Hhit) as (_ & _ & Hprefix).
  destruct (Z.lt_ge_cases (sub64 end_ start) 0) as [Hneg|Hpos].
  - destruct (truncate_negative_length (Header_Set "X-Source" "S3" newResponseWriter)
                [GetObjectCall (s3Bucket tch) (s3Prefix tch +:+ key (tile_of tch start))]
                start end_ (tile_of tch start) contents Hprefix Hneg) as [Ho Hr].
    rewrite Hr, Ho. cbn. repeat split; try discriminate; try lia; auto.
  - destruct (truncate_within (Header_Set "X-Source" "S3" newResponseWriter)
                [GetObjectCall (s3Bucket tch) (s3Prefix tch +:+ key (tile_of tch start))]
                start end_ (tile_of tch start) contents eq_refl Hprefix Hpos)
      as (Ho & Hs & _).
    rewrite Hs, Ho. repeat split; try discriminate; try lia; auto.
Qed.

End Serve.

(* ================================================================== *)
(** ** The scenarios of the design *)

Import Scenario.

(** Decides the phase of a concrete request in a concrete world by
    evaluation. *)
Ltac phase :=
  repeat match goal with
         | |- fetched _ _ _ _ _ _ => split
         | |- cache_miss _ _ _ _ _ => split
         | |- cache_hit _ _ _ _ _ _ => split
         | |- backend_refuses _ _ _ _ _ _ _ => split
         | |- accepted _ _ _ _ => split
         | |- _ /\ _ => split
         | |- exists err : go_error, _ => exists noSuchKey
         | |- exists resp : http_response, _ => eexists
         | |- _ <> _ => vm_compute; discriminate
         | |- _ = _ => vm_compute; reflexivity
         end.

(** Scenario A: tile size 1000, request 1234..1234, a full tile from the
    backend: 200 with the one entry at offset 234 of the tile. *)
Example scenario_A :
  let out := ServeHTTP (world None ok_response (batch 1000 1000) true)
               (handler 1000) (get_entries "1234" "1234") in
  outcome out = Returned /\ status (response out) = Some 200 /\
  Header (response out) !! "X-Source" = Some "CT log"%string /\
  Header (response out) !! "X-Response-Len" = Some "1"%string /\
  Header (response out) !! "X-Partial-Tile" = None /\
  written (response out) = [JSON {| Entries := [entry_at 1234] |}] /\
  Entries (batch 1000 1000) !! 234%nat = Some (entry_at 1234).
Proof. vm_compute. repeat split. Qed.

(** Scenario D: a partial tile of 700 entries, request 1999..1999. *)
Example scenario_D :
  let out := ServeHTTP (world None ok_response (batch 1000 700) true)
               (handler 1000) (get_entries "1999" "1999") in
  status (response out) = Some 400 /\
  written (response out) = [Text "requested range is past the end of the log"].
Proof. vm_compute. repeat split. Qed.

(* ================================================================== *)
(** ** Backend failures *)

Section Backend.
Variable env : environment.
Variable tch : tileCachingHandler.
Variable r : request.
Variables start end_ : Z.


(** Every other failure of the fetch is a 500. *)
Lemma backend_failure err :
  cache_miss env tch r start end_ ->
  getTileFromBackend env (tile_of tch start) = inr err ->
  errors_As_statusCodeError err = None ->
  status (response (ServeHTTP env tch r)) = Some 500.
Proof.
  intros Hmiss Hget Has. rewrite (ServeHTTP_cache_miss env tch r start end_ Hmiss). cbv zeta.
  rewrite Hget, Has. reflexivity.
Qed.

End Backend.



(* ================================================================== *)
(** ** Cache writes *)

(** Whenever the encoder fails on a full batch, [writeToS3] returns a
    nil error without having written anything. *)
Lemma writeToS3_encode_error env tch t contents err :
  len (Entries contents) = tile_size t ->
  tile_end t = add64 (tile_start t) (tile_size t) ->
  cbor_Encode env contents = inr err ->
  writeToS3 env tch t contents = (None, []).
Proof.
  intros Hlen Hend Henc. unfold writeToS3. rewrite Henc.
  destruct (Z.eqb_spec (len (Entries contents)) (tile_size t)); [|contradiction].
  destruct (Z.eqb_spec (tile_end t) (add64 (tile_start t) (tile_size t)));
    [reflexivity | contradiction].
Qed.

(** C2.  A full tile of two entries from the backend, and a CBOR encoder
    that fails on it: [writeToS3] returns nil, nothing is put into the
    cache, and the handler answers 200 instead of 500. *)
Theorem writeToS3_swallows_encode_error :
  let env := world None ok_response (batch 0 2) false in
  let tch := handler 2 in
  let r := get_entries "0" "0" in
  let t := tile_of tch 0 in
  fetched env tch r 0 1 (batch 0 2) /\
  len (Entries (batch 0 2)) = tileSize tch /\
  cbor_Encode env (batch 0 2) = inr (foreignError "cbor: encode failed") /\
  writeToS3 env tch t (batch 0 2) = (None, []) /\
  status (response (ServeHTTP env tch r)) = Some 200 /\
  status (response (ServeHTTP env tch r)) <> Some 500.
Proof. intros env tch r t. phase. Qed.

Section Persist.
Variable env : environment.
Variable tch : tileCachingHandler.
Variable r : request.
Variables start end_ : Z.
Variable contents : entries.

(** For every batch that the backend delivers: if it has fewer
    entries than the tile size, the handler makes no cache write (neither
    a call of [writeToS3] nor a [PutObject]) and sets the header
    X-Partial-Tile: true on the writer; a cache write is attempted exactly when the
    batch has tile-size entries; and everything written belongs to a
    batch of exactly as many entries as its tile's size. *)
Theorem partial_tile_not_persisted :
  fetched env tch r start end_ contents ->
  let out := ServeHTTP env tch r in
  let t := tile_of tch start in
  (len (Entries contents) < tileSize tch ->
   cache_writes (trace out) = [] /\
   Header (response out) !! "X-Partial-Tile" = Some "true"%string) /\
  (In (writeToS3Call t contents) (trace out) <->
   len (Entries contents) = tileSize tch) /\
  (cache_writes (trace out) <> [] <-> len (Entries contents) = tileSize tch) /\
  (forall ev, In ev (cache_writes (trace out)) ->
     len (Entries contents) = tile_size t /\
     (ev = writeToS3Call t contents \/
      exists raw body, cbor_Encode env contents = inl raw /\
                       gzip_Close env raw = inl body /\
                       ev = PutObjectCall (s3Bucket tch) (s3Prefix tch +:+ key t) body)).
Proof.
  intros [Hmiss Hfetch] out t.
  pose proof (ServeHTTP_cache_miss env tch r start end_ Hmiss) as Hserve. cbv zeta in Hserve.
  fold t in Hserve, Hfetch. rewrite Hfetch in Hserve.
  set (tr := [GetObjectCall (s3Bucket tch) (s3Prefix tch +:+ key t); BackendCall (url t)])
    in Hserve.
  set (puts := snd (writeToS3 env tch t contents)) in Hserve.
  assert (Hsize : tile_size t = tileSize tch) by reflexivity.
  destruct (Z.eqb_spec (len (Entries contents)) (tileSize tch)) as [Hfull|Hpartial].
  - (* a full tile *)
    assert (Htrace : trace out = tr ++ writeToS3Call t contents :: puts).
    { unfold out. rewrite Hserve.
      destruct (fst (writeToS3 env tch t contents)); [reflexivity | apply truncate_trace]. }
    assert (Hwrites : cache_writes (trace out) = writeToS3Call t contents :: puts).
    { rewrite Htrace. unfold cache_writes. rewrite List.filter_app. cbn.
      f_equal. apply writeToS3_only_puts. }
    rewrite Hwrites, Htrace.
    split; [intros Hlt; lia|].
    split; [split; [auto | intros _; apply in_or_app; right; left; reflexivity]|].
    split; [split; [auto | discriminate]|].
    intros ev Hev. split; [congruence|].
    destruct Hev as [<-|Hput]; [left; reflexivity | right].
    destruct (writeToS3_puts env tch t contents ev Hput) as (_ & raw & body & H1 & H2 & H3).
    exists raw, body. auto.
  - (* a partial tile *)
    assert (Hresp : out = truncateAndRespond
                      (Header_Set "X-Source" "CT log"
                         (Header_Set "X-Partial-Tile" "true" newResponseWriter))
                      tr start end_ t contents) by exact Hserve.
    assert (Htrace : trace out = tr) by (rewrite Hresp; apply truncate_trace).
    assert (Hnone : cache_writes tr = []) by reflexivity.
    rewrite Htrace, Hnone.
    split.
    { intros _. split; [reflexivity|].
      rewrite Hresp, truncate_header by discriminate. vm_compute. reflexivity. }
    split; [split; [intros [H|[H|[]]]; discriminate | contradiction]|].
    split; [split; [intros H; exfalso; apply H; reflexivity | contradiction]|].
    intros ev [].
Qed.

End Persist.

Lemma partial_tile_not_persisted_witness :
  let env := world None ok_response (batch 1000 700) true in
  let out := ServeHTTP env (handler 1000) (get_entries "1001" "1001") in
  cache_writes (trace out) = [] /\
  Header (response out) !! "X-Partial-Tile" = Some "true"%string.
Proof.
  intros env out.
  destruct (partial_tile_not_persisted env (handler 1000) (get_entries "1001" "1001")
              1001 1002 (batch 1000 700)) as [H _].
  - phase.
  - apply H. vm_compute. reflexivity.
Defined.

(* ================================================================== *)
(** ** The request for the whole int64 range *)

(** With a positive tile size the offset of an accepted start in its
    tile is at least 0 and less than the tile size. *)
Lemma accepted_prefix tch r start end_ :
  accepted tch r start end_ -> 0 < tileSize tch ->
  0 <= sub64 start (tile_start (tile_of tch start)) < tileSize tch.
Proof.
  intros Hacc Hpos. pose proof (accepted_start tch r start end_ Hacc) as Hstart.
  unfold tile_of. rewrite makeTile_offset by assumption.
  apply Z.mod_pos_bound. assumption.
Qed.

(** The requested length of an accepted request is negative for exactly
    one request: start = 0 and end = 2^63-1. *)
Lemma accepted_length tch r start end_ :
  accepted tch r start end_ ->
  (0 < sub64 end_ start /\ ~ (start = 0 /\ end_ = min_int64)) \/
  (start = 0 /\ end_ = min_int64 /\ sub64 end_ start < 0).
Proof.
  intros (_ & Hparse & _).
  destruct (requested_length _ _ _ Hparse) as (b & Hb & Hab & Ha & Hcases).
  pose proof (parseQueryParams_cases (Query r)) as Hc. cbv zeta in Hc.
  rewrite Hparse in Hc. destruct Hc as (b' & _ & Hb' & _ & Hq).
  rewrite <- (nonneg_int64_numeral_fun _ _ _ Hb Hb') in Hq.
  destruct Hcases as [(-> & -> & Hlen)|(Hne & Hlen & Hpos)].
  - right. subst end_. split; [reflexivity|]. split; [vm_compute; reflexivity|].
    rewrite Hlen. vm_compute. reflexivity.
  - left. split; [assumption|]. intros [-> ->]. rewrite Hlen in Hpos.
    destruct Hb as [_ Hb]. unfold Int64.max_int64 in *.
    destruct (Z.eq_dec b (2 ^ 63 - 1)) as [->|Hneq]; [tauto|].
    rewrite add64_one in Hq by (unfold Int64.max_int64; lia).
    unfold Int64.min_int64 in Hq. lia.
Qed.

(** C3.  The request start=0, end=2^63-1 with tile size 2, a cache miss
    and a full tile of two entries from the backend reaches the
    truncation with prefix 0, below the length 2 of the batch; the
    handler then panics on a negative slice bound and writes neither a
    status nor a body. *)
Theorem truncate_panics_on_whole_range :
  let env := world None ok_response (batch 0 2) true in
  let tch := handler 2 in
  let r := get_entries "0" "9223372036854775807" in
  let out := ServeHTTP env tch r in
  fetched env tch r 0 min_int64 (batch 0 2) /\
  sub64 0 (tile_start (tile_of tch 0)) = 0 /\
  len (Entries (batch 0 2)) = 2 /\
  sub64 min_int64 0 = min_int64 /\
  outcome out = Panicked /\
  status (response out) = None /\
  written (response out) = [].
Proof. intros env tch r out. phase. Qed.

(** C9.  The same request, start=0 and end=2^63-1, served from a cache
    that holds the tile at 0: the 400 of the out-of-range branch is not
    taken, but the handler panics and no 200 is written. *)
Theorem cache_hit_panics_on_whole_range :
  let env := world (Some (batch 0 2)) ok_response (batch 0 2) true in
  let tch := handler 2 in
  let r := get_entries "0" "9223372036854775807" in
  let out := ServeHTTP env tch r in
  cache_hit env tch r 0 min_int64 (batch 0 2) /\
  outcome out = Panicked /\
  status (response out) <> Some 200 /\
  status (response out) = None.
Proof. intros env tch r out. phase. Qed.

(* ================================================================== *)
(** * Further properties of the adapters *)

(** [getFromS3] returns the [noSuchKey] error exactly when S3 reports
    that the key does not exist; every other failure (another S3 error,
    a bad gzip header, a CBOR error, a batch of the wrong length) is a
    different error. *)
Lemma getFromS3_noSuchKey env tch t :
  getFromS3 env tch t = inr noSuchKey <->
  exists err, s3_GetObject env (s3Bucket tch) (s3Prefix tch +:+ key t)
              = GetObject_error true err.
Proof.
  unfold getFromS3, inconsistency.
  destruct (s3_GetObject env _ _) as [[|] err|body].
  - split; eauto.
  - split; [discriminate | intros [e [=]]].
  - split; [|intros [e [=]]].
    destruct (gzip_NewReader env body) as [stream|]; [|discriminate].
    destruct (cbor_Decode env stream) as [es|]; [|discriminate].
    destruct (_ || _); discriminate.
Qed.

(** [getTileFromBackend] returns a [statusCodeError] exactly when the
    request could be made and the backend answered with a status other
    than 200 whose body could be read; the error carries that status and
    that body.  It never carries the status 200. *)
Lemma getTileFromBackend_statusCodeError env t code body :
  getTileFromBackend env t = inr (statusCodeError code body) <->
  http_NewRequest env (url t) = None /\
  exists resp, http_Do env (url t) = inl resp /\
               StatusCode resp = code /\ code <> 200 /\ Body resp = inl body.
Proof.
  unfold getTileFromBackend.
  destruct (http_NewRequest env (url t)) as [e|].
  { split; [discriminate | intros [[=] _]]. }
  destruct (http_Do env (url t)) as [resp|e].
  2:{ split; [discriminate | intros (_ & resp & [=] & _)]. }
  destruct (Z.eqb_spec (StatusCode resp) 200) as [H200|Hne]; cbn [negb].
  - split.
    + destruct (Body resp) as [b|e]; [destruct (json_Decode env b) as [es|e]|];
        try discriminate.
      destruct (_ || _); discriminate.
    + intros (_ & resp' & [= <-] & <- & Hc & _). contradiction.
  - destruct (Body resp) as [b|e] eqn:Hb.
    + split.
      * intros [= <- <-]. split; [reflexivity|]. exists resp.
        split; [reflexivity|]. split; [reflexivity|]. split; assumption.
      * intros (_ & resp' & [= <-] & <- & _ & Hb'). rewrite Hb in Hb'.
        injection Hb' as <-. reflexivity.
    + split; [discriminate|]. intros (_ & resp' & [= <-] & _ & _ & Hb').
      rewrite Hb in Hb'. discriminate.
Qed.

(** [writeToS3] checks its arguments first: for a batch whose length is
    not the tile's size, or a tile whose end is not start + size, it
    returns an error and makes no [PutObject] call. *)
Lemma writeToS3_rejects env tch t contents :
  len (Entries contents) <> tile_size t \/
  tile_end t <> add64 (tile_start t) (tile_size t) ->
  writeToS3 env tch t contents = (Some (inconsistency contents t), []).
Proof.
  intros H. unfold writeToS3.
  destruct (Z.eqb_spec (len (Entries contents)) (tile_size t));
    destruct (Z.eqb_spec (tile_end t) (add64 (tile_start t) (tile_size t)));
    try reflexivity.
  tauto.
Qed.

Lemma writeToS3_rejects_witness :
  writeToS3 (world None ok_response (batch 0 2) true) (handler 4)
    (tile_of (handler 4) 0) (batch 0 2)
  = (Some (inconsistency (batch 0 2) (tile_of (handler 4) 0)), []).
Proof.
  apply (writeToS3_rejects (world None ok_response (batch 0 2) true) (handler 4)
           (tile_of (handler 4) 0) (batch 0 2)).
  left. vm_compute. discriminate.
Defined.

(** [writeToS3] makes at most one [PutObject] call, and when it returns
    nil after a call, S3 accepted the object. *)
Lemma writeToS3_at_most_once env tch t contents :
  (length (snd (writeToS3 env tch t contents)) <= 1)%nat /\
  (forall bucket k body,
     writeToS3 env tch t contents = (None, [PutObjectCall bucket k body]) ->
     s3_PutObject env bucket k body = None /\
     bucket = s3Bucket tch /\ k = s3Prefix tch +:+ key t).
Proof.
  unfold writeToS3.
  destruct (_ || _); [split; [cbn; lia | discriminate]|].
  destruct (cbor_Encode env contents) as [raw|]; [|split; [cbn; lia | discriminate]].
  destruct (gzip_Close env raw) as [body|]; [|split; [cbn; lia | discriminate]].
  destruct (s3_PutObject env _ _ _) eqn:Hput; split; try (cbn; lia); try discriminate.
  intros bucket k body' [= <- <- <-]. auto.
Qed.

(** Round trip: what [writeToS3] has put into S3, [getFromS3] reads back
    unchanged for the same tile, provided the decoders undo the encoders
    on that batch. *)
Lemma getFromS3_writeToS3 env tch t contents bucket k body :
  writeToS3 env tch t contents = (None, [PutObjectCall bucket k body]) ->
  codec_round_trip env contents ->
  getFromS3 (with_object env bucket k body) tch t = inl contents.
Proof.
  intros Hwrite Hcodec. unfold writeToS3 in Hwrite.
  destruct (Z.eqb_spec (len (Entries contents)) (tile_size t)) as [Hlen|];
    [|discriminate].
  destruct (Z.eqb_spec (tile_end t) (add64 (tile_start t) (tile_size t))) as [Hend|];
    [|discriminate].
  cbn [negb orb] in Hwrite.
  destruct (cbor_Encode env contents) as [raw|] eqn:Henc; [|discriminate].
  destruct (gzip_Close env raw) as [body'|] eqn:Hzip; [|discriminate].
  destruct (s3_PutObject env _ _ _); [discriminate|].
  injection Hwrite as <- <- <-.
  destruct (Hcodec raw body' Henc Hzip) as [Hunzip Hdec].
  unfold getFromS3. cbn [with_object s3_GetObject gzip_NewReader cbor_Decode Quote].
  rewrite !String.eqb_refl. cbn [andb].
  rewrite Hunzip, Hdec.
  destruct (Z.eqb_spec (len (Entries contents)) (tile_size t)); [|contradiction].
  destruct (Z.eqb_spec (tile_end t) (add64 (tile_start t) (tile_size t)));
    [reflexivity | contradiction].
Qed.

(* ================================================================== *)
(** * Further properties of the tile arithmetic *)

(** With a positive size the start of the tile is the requested start
    rounded down to a multiple of the size. *)
Lemma makeTile_start_multiple (start size : Z) (logURL : string) :
  0 < size -> 0 <= start <= max_int64 ->
  tile_start (makeTile start size logURL) = size * (start / size).
Proof.
  intros Hsize Hstart. rewrite makeTile_start by assumption.
  rewrite Z.mod_eq by lia. lia.
Qed.

(** Every position inside a tile is mapped to that same tile: the tiles
    of one size partition the positions, and [makeTile] is idempotent on
    tile starts. *)
Lemma makeTile_same_tile (start p size : Z) (logURL : string) :
  0 < size -> 0 <= start <= max_int64 -> 0 <= p <= max_int64 ->
  tile_start (makeTile start size logURL) <= p
    < tile_start (makeTile start size logURL) + size ->
  makeTile p size logURL = makeTile start size logURL.
Proof.
  intros Hsize Hstart Hp Hin.
  assert (Heq : tile_start (makeTile p size logURL)
                = tile_start (makeTile start size logURL)).
  { rewrite (makeTile_start_multiple start size logURL) in * by assumption.
    rewrite (makeTile_start_multiple p size logURL) by assumption.
    f_equal. symmetry.
    apply (Z.div_unique p size (start / size) (p - size * (start / size))); lia. }
  unfold makeTile in *. cbn [tile_start] in Heq. rewrite Heq. reflexivity.
Qed.

Lemma key_fields_inj (t1 t2 : tile) :
  key t1 = key t2 -> tile_size t1 = tile_size t2 /\ tile_start t1 = tile_start t2.
Proof.
  rewrite !key_fields. intros H. apply append_cancel_l in H.
  apply append_separator_inj in H as [Hsize H];
    try (apply occurs_Sprintf_d; reflexivity).
  apply append_separator_inj in H as [Hstart _];
    try (apply occurs_Sprintf_d; reflexivity).
  split; apply Sprintf_d_inj; assumption.
Qed.

(** Two requested starts are served from the same cache object exactly
    when they lie in the same tile, that is when they have the same
    quotient by the tile size. *)
Lemma key_shared (a b size : Z) (u1 u2 : string) :
  0 < size -> 0 <= a <= max_int64 -> 0 <= b <= max_int64 ->
  key (makeTile a size u1) = key (makeTile b size u2) <-> a / size = b / size.
Proof.
  intros Hsize Ha Hb. split.
  - intros H. apply key_fields_inj in H as [_ H].
    rewrite !makeTile_start_multiple in H by assumption.
    apply Z.mul_reg_l in H; [assumption | lia].
  - intros H. unfold key.
    change (tile_size (makeTile a size u1)) with size.
    change (tile_size (makeTile b size u2)) with size.
    rewrite !makeTile_start_multiple by assumption. rewrite H. reflexivity.
Qed.

Lemma key_shared_witness :
  key (makeTile 1000 1000 "a") = key (makeTile 1999 1000 "b") /\
  key (makeTile 1999 1000 "a") <> key (makeTile 2000 1000 "a").
Proof.
  split.
  - apply (key_shared 1000 1999 1000 "a" "b"); vm_compute;
      try reflexivity; split; discriminate.
  - intros H. apply (key_shared 1999 2000 1000 "a" "a") in H; vm_compute;
      try reflexivity; try (split; discriminate). vm_compute in H. discriminate.
Defined.

(* ================================================================== *)
(** * Further properties of the handler *)

(** The handler leaves the cache and the backend alone exactly when it
    rejects the request (a wrong path or bad parameters) or has no tile
    size to divide by; a rejected request is answered with 404 or 400. *)
Lemma no_outside_call env tch r :
  let out := ServeHTTP env tch r in
  (trace out = [] <->
     HasSuffix (Path r) "/ct/v1/get-entries" = false \/
     (exists err, parseQueryParams (Query r) = inr err) \/
     tileSize tch = 0) /\
  (HasSuffix (Path r) "/ct/v1/get-entries" = false ->
     status (response out) = Some 404 /\
     written (response out) = [Text ("invalid path " +:+ Quote env (Path r) +:+ nl)]) /\
  (forall err, HasSuffix (Path r) "/ct/v1/get-entries" = true ->
     parseQueryParams (Query r) = inr err ->
     status (response out) = Some 400 /\
     written (response out) = [Text (Error (Quote env) err +:+ nl)]).
Proof.
  intros out. unfold out, ServeHTTP.
  destruct (HasSuffix (Path r) "/ct/v1/get-entries") eqn:Hpath; cbn [negb].
  2:{ split; [split; auto|]. split; [auto | discriminate]. }
  destruct (parseQueryParams (Query r)) as [[start end_]|err] eqn:Hparse.
  2:{ split; [split; eauto|]. split; [discriminate|]. intros err' _ [= <-]. auto. }
  split; [|split; [discriminate | intros err _ [=]]].
  destruct (Z.eqb_spec (tileSize tch) 0) as [Hz|Hnz]; [split; auto|].
  split.
  - intros Htr. exfalso. revert Htr.
    destruct (getFromS3 env tch _) as [contents|err].
    + rewrite truncate_trace. discriminate.
    + destruct (errors_Is_noSuchKey err); cbn [negb]; [|discriminate].
      destruct (getTileFromBackend env _) as [contents|berr];
        [|rewrite respond_trace; discriminate].
      destruct (len (Entries contents) =? tileSize tch).
      * destruct (writeToS3 env tch _ contents) as [[werr|] puts];
          [|rewrite truncate_trace]; discriminate.
      * rewrite truncate_trace. discriminate.
  - intros [H|[[err H]|H]]; [discriminate | discriminate | contradiction].
Qed.

Section MoreServe.
Variable env : environment.
Variable tch : tileCachingHandler.
Variable r : request.
Variables start end_ : Z.

(** A failure of the cache other than a missing key is a 500, and the
    backend is not asked. *)
Lemma cache_failure err :
  accepted tch r start end_ ->
  getFromS3 env tch (tile_of tch start) = inr err ->
  errors_Is_noSuchKey err = false ->
  let out := ServeHTTP env tch r in
  status (response out) = Some 500 /\
  written (response out) = [Text ("reading from s3: " +:+ Error (Quote env) err +:+ nl)] /\
  trace out = [GetObjectCall (s3Bucket tch) (s3Prefix tch +:+ key (tile_of tch start))].
Proof.
  intros (Hpath & Hparse & Hsize) Hget Hnsk out. unfold out, ServeHTTP, tile_of in *.
  rewrite Hpath, Hparse. cbn [negb].
  destruct (Z.eqb_spec (tileSize tch) 0); [contradiction|].
  rewrite Hget, Hnsk. cbn. auto.
Qed.

(** A cache hit costs one [GetObject] call and nothing else: the backend
    is not asked and nothing is written; the source header says S3 and
    there is no partial-tile header. *)
Lemma cache_hit_calls contents :
  cache_hit env tch r start end_ contents ->
  let out := ServeHTTP env tch r in
  trace out = [GetObjectCall (s3Bucket tch) (s3Prefix tch +:+ key (tile_of tch start))] /\
  Header (response out) !! "X-Source" = Some "S3"%string /\
  Header (response out) !! "X-Partial-Tile" = None.
Proof.
  intros Hhit out. unfold out.
  rewrite (ServeHTTP_cache_hit env tch r start end_ contents Hhit).
  rewrite truncate_trace, !truncate_header by discriminate.
  repeat split.
Qed.

(** A failure to store a full tile is a 500: the batch that was fetched
    is not served. *)
Lemma write_failure contents err :
  fetched env tch r start end_ contents ->
  len (Entries contents) = tileSize tch ->
  fst (writeToS3 env tch (tile_of tch start) contents) = Some err ->
  let out := ServeHTTP env tch r in
  outcome out = Returned /\
  status (response out) = Some 500 /\
  written (response out) = [Text ("writing to s3: " +:+ Error (Quote env) err +:+ nl)].
Proof.
  intros [Hmiss Hfetch] Hfull Herr out. unfold out.
  rewrite (ServeHTTP_cache_miss env tch r start end_ Hmiss). cbv zeta.
  rewrite Hfetch, Herr.
  destruct (Z.eqb_spec (len (Entries contents)) (tileSize tch)); [|contradiction].
  cbn. auto.
Qed.

(** Whatever is delivered goes through the truncation, on a writer that
    has only its source header set. *)
Lemma delivered_truncates contents :
  delivered env tch r start end_ contents ->
  exists w tr,
    ServeHTTP env tch r
    = truncateAndRespond w tr start end_ (tile_of tch start) contents /\
    status w = None /\ written w = [].
Proof.
  intros [Hhit|[[Hmiss Hfetch] Hwrite]].
  - rewrite (ServeHTTP_cache_hit env tch r start end_ contents Hhit). eauto.
  - rewrite (ServeHTTP_cache_miss env tch r start end_ Hmiss). cbv zeta.
    rewrite Hfetch.
    destruct (Z.eqb_spec (len (Entries contents)) (tileSize tch)) as [Hfull|Hpart].
    + rewrite (Hwrite Hfull). eauto.
    + eauto.
Qed.

(** A delivered batch belongs to an accepted request for a positive tile
    size, and has between 1 and tile-size entries. *)
Lemma delivered_batch contents :
  delivered env tch r start end_ contents ->
  accepted tch r start end_ /\ 0 < tileSize tch /\
  0 < len (Entries contents) <= tileSize tch.
Proof.
  intros [Hhit|[[Hmiss Hfetch] _]].
  - destruct (cache_hit_covers env tch r start end_ contents Hhit) as (Hpos & Hlen & _).
    destruct Hhit as [Hacc _]. split; [assumption|]. lia.
  - apply getTileFromBackend_length in Hfetch. cbn [tile_of makeTile tile_size] in Hfetch.
    destruct Hmiss as [Hacc _]. split; [assumption|]. lia.
Qed.

(** What a request is served, in the numbers of the request itself: for
    a request [start..b] other than the one for the whole int64 range,
    with [offset] the position of [start] in its tile, the handler
    answers 400 when the batch ends at or before [offset], and otherwise
    200 with the entries of the batch from [offset] on, as many as were
    requested ([b - start + 1]) or as the batch has left, at least one;
    X-Response-Len is their number. *)
Theorem served_entries contents b :
  delivered env tch r start end_ contents ->
  nonneg_int64_numeral (Values_Get (Query r) "end") b ->
  ~ (start = 0 /\ b = max_int64) ->
  let out := ServeHTTP env tch r in
  let batch := Entries contents in
  let offset := start mod tileSize tch in
  (len batch <= offset ->
     outcome out = Returned /\ status (response out) = Some 400 /\
     written (response out) = [Text "requested range is past the end of the log"]) /\
  (offset < len batch ->
     let count := Z.min (b - start + 1) (len batch - offset) in
     1 <= count /\
     outcome out = Returned /\ status (response out) = Some 200 /\
     written (response out)
     = [JSON {| Entries := take (Z.to_nat count) (drop (Z.to_nat offset) batch) |}] /\
     Header (response out) !! "X-Response-Len" = Some (Sprintf_d count)).
Proof.
  intros Hdel Hb Hnot out batch offset.
  destruct (delivered_batch contents Hdel) as (Hacc & Hpos & Hlen).
  destruct (delivered_truncates contents Hdel) as (w & tr & Hserve & Hfresh & Hempty).
  pose proof (accepted_start tch r start end_ Hacc) as Hstart.
  assert (Hprefix : sub64 start (tile_start (tile_of tch start)) = offset)
    by (unfold tile_of; apply makeTile_offset; assumption).
  assert (Hreq : sub64 end_ start = b - start + 1 /\ 0 < sub64 end_ start).
  { destruct Hacc as (_ & Hparse & _).
    destruct (requested_length _ _ _ Hparse) as (b' & Hb' & _ & _ & Hcases).
    rewrite <- (nonneg_int64_numeral_fun _ _ _ Hb Hb') in Hcases.
    destruct Hcases as [(H0 & Hmax & _)|(_ & Hl & Hp)]; [tauto | auto]. }
  destruct Hreq as [Hreq Hreqpos].
  pose proof (Z.mod_pos_bound start (tileSize tch) Hpos) as Hoff. fold offset in Hoff.
  unfold out. rewrite Hserve. split.
  - intros Hpast.
    pose proof (truncate_past_end w tr start end_ (tile_of tch start) contents Hfresh) as H.
    cbv zeta in H. rewrite Hprefix, Hempty in H. apply H. exact Hpast.
  - intros Hin. set (count := Z.min (b - start + 1) (len batch - offset)).
    pose proof (truncate_within w tr start end_ (tile_of tch start) contents Hfresh) as H.
    cbv zeta in H. rewrite Hprefix, Hreq, Hempty in H.
    fold batch in H. fold count in H. rewrite Hreq in Hreqpos.
    destruct H as (Ho & Hs & Hw & Hh & _); [lia | lia |].
    split; [unfold count; lia|]. auto.
Qed.

End MoreServe.

Lemma served_entries_witness :
  let env := world None ok_response (batch 1000 700) true in
  let out := ServeHTTP env (handler 1000) (get_entries "1001" "1001") in
  status (response out) = Some 200 /\
  written (response out) = [JSON {| Entries := [entry_at 1001] |}] /\
  Header (response out) !! "X-Response-Len" = Some "1"%string.
Proof.
  intros env out.
  destruct (served_entries env (handler 1000) (get_entries "1001" "1001")
              1001 1002 (batch 1000 700) 1001) as [_ H].
  - right. split; [phase|]. intros H. vm_compute in H. discriminate.
  - vm_compute. repeat split; discriminate.
  - intros [H _]. discriminate.
  - destruct H as (_ & _ & Hs & Hw & Hh); [vm_compute; reflexivity|].
    repeat split; assumption.
Defined.

(* ================================================================== *)
(** * Panics and tile sizes *)

(** The truncation panics only on a negative prefix or a negative
    requested length. *)
Lemma truncate_panics_inv w tr start end_ t contents :
  outcome (truncateAndRespond w tr start end_ t contents) = Panicked ->
  sub64 start (tile_start t) < 0 \/ sub64 end_ start < 0.
Proof.
  unfold truncateAndRespond.
  destruct (Z.leb_spec (len (Entries contents)) (sub64 start (tile_start t))) as [|Hin];
    [discriminate|].
  destruct (Z.lt_ge_cases (sub64 start (tile_start t)) 0) as [Hneg|Hpos]; [auto|].
  rewrite slice_from_inside by lia. rewrite len_drop by lia.
  destruct (Z.ltb_spec (sub64 end_ start)
              (len (Entries contents) - sub64 start (tile_start t))) as [Hlt|];
    [|discriminate].
  destruct (Z.lt_ge_cases (sub64 end_ start) 0) as [Hn|Hp]; [auto|].
  rewrite slice_to_inside by (rewrite len_drop; lia). discriminate.
Qed.

(** The handler panics in three situations only: it was given a tile
    size of zero; the request is the one for the whole int64 range,
    start = 0 and end = 2^63 - 1 (for which the parser returns the least
    int64 as the end); or, after a cache miss, the backend fetch failed
    with a [statusCodeError] whose status is not a valid status code
    (100 to 999), which [WriteHeader] refuses. *)
Theorem panics_only env tch r :
  outcome (ServeHTTP env tch r) = Panicked ->
  exists start end_,
    HasSuffix (Path r) "/ct/v1/get-entries" = true /\
    parseQueryParams (Query r) = inl (start, end_) /\
    (tileSize tch = 0 \/
     (start = 0 /\ end_ = min_int64) \/
     (cache_miss env tch r start end_ /\
      exists err code body,
        getTileFromBackend env (tile_of tch start) = inr err /\
        errors_As_statusCodeError err = Some (code, body) /\
        ~ 100 <= code <= 999)).
Proof.
  intros Hpanic.
  assert (Hpath : HasSuffix (Path r) "/ct/v1/get-entries" = true).
  { destruct (HasSuffix (Path r) "/ct/v1/get-entries") eqn:E; [reflexivity|].
    unfold ServeHTTP in Hpanic. rewrite E in Hpanic. discriminate. }
  destruct (parseQueryParams (Query r)) as [[start end_]|err] eqn:Hparse.
  2:{ unfold ServeHTTP in Hpanic. rewrite Hpath, Hparse in Hpanic. discriminate. }
  exists start, end_. split; [assumption|]. split; [reflexivity|].
  destruct (Z.eq_dec (tileSize tch) 0) as [Hz|Hnz]; [auto|]. right.
  assert (Hacc : accepted tch r start end_) by (repeat split; assumption).
  assert (Hwhere :
            (exists contents w tr,
                0 < len (Entries contents) <= tileSize tch /\
                outcome (truncateAndRespond w tr start end_ (tile_of tch start) contents)
                = Panicked) \/
            (cache_miss env tch r start end_ /\
             exists err code body,
               getTileFromBackend env (tile_of tch start) = inr err /\
               errors_As_statusCodeError err = Some (code, body) /\
               ~ 100 <= code <= 999)).
  { unfold ServeHTTP in Hpanic. rewrite Hpath, Hparse in Hpanic. cbn [negb] in Hpanic.
    destruct (Z.eqb_spec (tileSize tch) 0); [contradiction|].
    fold (tile_of tch start) in Hpanic.
    destruct (getFromS3 env tch (tile_of tch start)) as [contents|err] eqn:Hget.
    - left. apply getFromS3_full in Hget as [Hlen _].
      cbn [tile_of makeTile tile_size] in Hlen.
      pose proof (len_nonneg (Entries contents)).
      exists contents. do 2 eexists. split; [lia | exact Hpanic].
    - destruct (errors_Is_noSuchKey err) eqn:Hnsk; cbn [negb] in Hpanic; [|discriminate].
      destruct (getTileFromBackend env (tile_of tch start)) as [contents|berr] eqn:Hfetch.
      + left. apply getTileFromBackend_length in Hfetch.
        cbn [tile_of makeTile tile_size] in Hfetch.
        exists contents.
        destruct (len (Entries contents) =? tileSize tch).
        * destruct (writeToS3 env tch (tile_of tch start) contents) as [[werr|] puts];
            [discriminate|]. do 2 eexists. split; [lia | exact Hpanic].
        * do 2 eexists. split; [lia | exact Hpanic].
      + right. split; [split; [assumption | eauto]|].
        destruct (errors_As_statusCodeError berr) as [[code body]|] eqn:Has;
          [|discriminate].
        exists berr, code, body. split; [reflexivity|]. split; [exact Has|].
        intros Hvalid. rewrite respond_valid in Hpanic by (assumption || reflexivity).
        discriminate. }
  destruct Hwhere as [(contents & w & tr & Hlen & Hp)|Hbad]; [|auto].
  left. apply truncate_panics_inv in Hp.
  pose proof (accepted_prefix tch r start end_ Hacc ltac:(lia)) as Hprefix.
  destruct (accepted_length tch r start end_ Hacc) as [[Hpos _]|(H0 & Hmin & _)];
    [lia | auto].
Qed.

Lemma panics_only_witness :
  exists start end_,
    parseQueryParams (Query (get_entries "0" "9223372036854775807")) = inl (start, end_) /\
    start = 0 /\ end_ = min_int64.
Proof.
  destruct (panics_only (world (Some (batch 0 2)) ok_response (batch 0 2) true)
              (handler 2) (get_entries "0" "9223372036854775807"))
    as (start & end_ & _ & Hparse & [Hz|[[H0 Hmin]|[[_ (err & Hget & Hnsk)] _]]]).
  - vm_compute. reflexivity.
  - vm_compute in Hz. discriminate.
  - exists start, end_. auto.
  - exfalso. vm_compute in Hparse. injection Hparse as <- <-.
    vm_compute in Hget. discriminate.
Defined.

(** With a negative tile size (which [main] does not refuse) no request
    is ever served entries and nothing is written to the cache: every
    cached object and every backend batch is rejected for its length.
    The handler then panics only when the backend fetch failed with a
    [statusCodeError] whose status is not a valid status code. *)
Theorem negative_tile_size env tch r :
  tileSize tch < 0 ->
  let out := ServeHTTP env tch r in
  List.filter is_entries_chunk (written (response out)) = [] /\
  cache_writes (trace out) = [] /\
  (outcome out = Panicked ->
   exists start err code body,
     getTileFromBackend env (tile_of tch start) = inr err /\
     errors_As_statusCodeError err = Some (code, body) /\
     ~ 100 <= code <= 999).
Proof.
  intros Hneg out. unfold out, ServeHTTP.
  destruct (HasSuffix (Path r) "/ct/v1/get-entries"); cbn [negb];
    [|repeat split; discriminate].
  destruct (parseQueryParams (Query r)) as [[start end_]|err];
    [|repeat split; discriminate].
  destruct (Z.eqb_spec (tileSize tch) 0); [lia|].
  fold (tile_of tch start).
  destruct (getFromS3 env tch (tile_of tch start)) as [contents|err] eqn:Hget.
  { apply getFromS3_full in Hget as [Hlen _].
    cbn [tile_of makeTile tile_size] in Hlen.
    pose proof (len_nonneg (Entries contents)). lia. }
  destruct (errors_Is_noSuchKey err); cbn [negb]; [|repeat split; discriminate].
  destruct (getTileFromBackend env (tile_of tch start)) as [contents|berr] eqn:Hfetch.
  { apply getTileFromBackend_length in Hfetch.
    cbn [tile_of makeTile tile_size] in Hfetch. lia. }
  cbv zeta.
  destruct (respond_cases
              match errors_As_statusCodeError berr with
              | Some (code, _) => code
              | None => StatusInternalServerError
              end
              (Text (Error (Quote env) berr +:+ nl)) newResponseWriter
              ([GetObjectCall (s3Bucket tch) (s3Prefix tch +:+ key (tile_of tch start))]
                 ++ [BackendCall (url (tile_of tch start))]) eq_refl)
    as [[_ ->]|[Hbad ->]].
  - repeat split. discriminate.
  - repeat split. intros _.
    destruct (errors_As_statusCodeError berr) as [[code body]|] eqn:Has.
    + exists start, berr, code, body. auto.
    + exfalso. apply Hbad. unfold StatusInternalServerError. lia.
Qed.

Lemma negative_tile_size_witness :
  let out := ServeHTTP (world (Some (batch 0 2)) ok_response (batch 0 2) true)
               (handler (-2)) (get_entries "0" "0") in
  List.filter is_entries_chunk (written (response out)) = [] /\
  cache_writes (trace out) = [].
Proof.
  intros out.
  destruct (negative_tile_size (world (Some (batch 0 2)) ok_response (batch 0 2) true)
              (handler (-2)) (get_entries "0" "0")) as (H1 & H2 & _).
  - vm_compute. reflexivity.
  - split; assumption.
Defined.

(* ================================================================== *)
(** * Startup *)

(** When [main] starts the server, the handler it has built meets the
    requirements written on its fields: the log URL, the bucket and the
    prefix are not empty and the tile size is not zero; the prefix is
    the flag's value, or the log URL when the flag is empty; and the
    handler's timeout is the non-zero value of the flag. *)
Theorem main_handler Quote f cfg tch srv :
  main Quote f cfg = Serve tch srv ->
  logURL tch = flag_log_url f /\ logURL tch <> EmptyString /\
  tileSize tch = flag_tile_size f /\ tileSize tch <> 0 /\
  s3Bucket tch = flag_s3_bucket f /\ s3Bucket tch <> EmptyString /\
  s3Prefix tch <> EmptyString /\
  (flag_s3_prefix f = EmptyString -> s3Prefix tch = logURL tch) /\
  (flag_s3_prefix f <> EmptyString -> s3Prefix tch = flag_s3_prefix f) /\
  HandlerTimeout srv = flag_full_request_timeout f /\ HandlerTimeout srv <> 0 /\
  cfg = None.
Proof.
  unfold main.
  destruct (String.eqb_spec (flag_log_url f) EmptyString) as [|Hurl]; [discriminate|].
  destruct (String.eqb_spec (flag_s3_bucket f) EmptyString) as [|Hbucket]; [discriminate|].
  destruct (Z.eqb_spec (flag_tile_size f) 0) as [|Hsize]; [discriminate|].
  destruct (Z.eqb_spec (flag_full_request_timeout f) 0) as [|Htime]; [discriminate|].
  destruct cfg as [err|]; [discriminate|].
  intros [= <- <-]. cbn.
  destruct (String.eqb_spec (flag_s3_prefix f) EmptyString) as [Hp|Hp];
    repeat split; try assumption; try reflexivity; try contradiction; auto.
Qed.

Lemma main_handler_witness :
  exists tch srv,
    main (fun s => s)
      {| flag_log_url := "https://log.example/2023"; flag_tile_size := 256;
         flag_s3_bucket := "bucket"; flag_s3_prefix := "";
         flag_listen_address := ":8080"; flag_full_request_timeout := 4 * Second |}
      None = Serve tch srv /\
    s3Prefix tch = "https://log.example/2023"%string /\ tileSize tch = 256.
Proof.
  do 2 eexists. split; [vm_compute; reflexivity|].
  match goal with
  | |- s3Prefix ?tch = _ /\ _ =>
      destruct (main_handler (fun s => s)
                  {| flag_log_url := "https://log.example/2023"; flag_tile_size := 256;
                     flag_s3_bucket := "bucket"; flag_s3_prefix := "";
                     flag_listen_address := ":8080";
                     flag_full_request_timeout := 4 * Second |}
                  None tch _ eq_refl)
        as (Hu & _ & Hs & _ & _ & _ & _ & Hp & _)
  end.
  split; [rewrite Hp by reflexivity; exact Hu | exact Hs].
Defined.

(** The write timeout of the server is one second more than the time
    given to the handler, as long as that sum is an int64 number of
    nanoseconds. *)
Lemma main_write_timeout Quote f cfg tch srv :
  main Quote f cfg = Serve tch srv ->
  min_int64 <= flag_full_request_timeout f <= max_int64 - Second ->
  WriteTimeout srv = HandlerTimeout srv + Second /\
  HandlerTimeout srv < WriteTimeout srv.
Proof.
  unfold main.
  destruct (String.eqb (flag_log_url f) EmptyString); [discriminate|].
  destruct (String.eqb (flag_s3_bucket f) EmptyString); [discriminate|].
  destruct (flag_tile_size f =? 0); [discriminate|].
  destruct (flag_full_request_timeout f =? 0); [discriminate|].
  destruct cfg as [err|]; [discriminate|].
  intros [= <- <-] Hrange. cbn [WriteTimeout HandlerTimeout].
  unfold Int64.add. rewrite wrap_in_range.
  - unfold Second in *. lia.
  - unfold Int64.in_range, Int64.min_int64, Int64.max_int64, Second in *. lia.
Qed.

Lemma main_write_timeout_witness :
  exists tch srv,
    main (fun s => s)
      {| flag_log_url := "https://log.example/2023"; flag_tile_size := 256;
         flag_s3_bucket := "bucket"; flag_s3_prefix := "p";
         flag_listen_address := ":8080"; flag_full_request_timeout := 4 * Second |}
      None = Serve tch srv /\
    WriteTimeout srv = 5000000000.
Proof.
  do 2 eexists. split; [vm_compute; reflexivity|].
  match goal with
  | |- WriteTimeout ?srv = _ =>
      destruct (main_write_timeout (fun s => s)
                  {| flag_log_url := "https://log.example/2023"; flag_tile_size := 256;
                     flag_s3_bucket := "bucket"; flag_s3_prefix := "p";
                     flag_listen_address := ":8080";
                     flag_full_request_timeout := 4 * Second |}
                  None _ srv eq_refl) as [H _]
  end.
  - vm_compute. split; discriminate.
  - rewrite H. reflexivity.
Defined.

(* ================================================================== *)
(** * Write-through *)

Import Faults.

Lemma makeTile_quotient (a b size : Z) (logURL : string) :
  0 < size -> 0 <= a <= max_int64 -> 0 <= b <= max_int64 ->
  a / size = b / size -> makeTile a size logURL = makeTile b size logURL.
Proof.
  intros Hsize Ha Hb Hq.
  apply makeTile_same_tile; try assumption.
  rewrite makeTile_start_multiple by assumption. rewrite <- Hq.
  pose proof (Z.mod_pos_bound a size Hsize).
  pose proof (Z.div_mod a size ltac:(lia)). lia.
Qed.

(** Write-through: once a request has fetched a full tile and stored it,
    every later accepted request whose start lies in the same tile is a
    cache hit on that batch in the world that holds the stored object,
    and is answered from one [GetObject] call, without the backend
    (provided the decoders undo the encoders on the batch). *)
Theorem write_through env tch r1 start1 end1 r2 start2 end2 contents bucket k body :
  fetched env tch r1 start1 end1 contents ->
  writeToS3 env tch (tile_of tch start1) contents
  = (None, [PutObjectCall bucket k body]) ->
  codec_round_trip env contents ->
  accepted tch r2 start2 end2 ->
  start2 / tileSize tch = start1 / tileSize tch ->
  let env' := with_object env bucket k body in
  cache_hit env' tch r2 start2 end2 contents /\
  trace (ServeHTTP env' tch r2)
  = [GetObjectCall (s3Bucket tch) (s3Prefix tch +:+ key (tile_of tch start2))].
Proof.
  intros [[Hacc1 _] Hfetch] Hwrite Hcodec Hacc2 Hq env'.
  apply getTileFromBackend_length in Hfetch. cbn [tile_of makeTile tile_size] in Hfetch.
  assert (Hpos : 0 < tileSize tch) by lia.
  assert (Htile : tile_of tch start2 = tile_of tch start1).
  { unfold tile_of. apply makeTile_quotient; try assumption.
    - exact (accepted_start tch r2 start2 end2 Hacc2).
    - exact (accepted_start tch r1 start1 end1 Hacc1). }
  assert (Hhit : cache_hit env' tch r2 start2 end2 contents).
  { split; [assumption|]. rewrite Htile.
    apply getFromS3_writeToS3; assumption. }
  split; [assumption|].
  rewrite (ServeHTTP_cache_hit env' tch r2 start2 end2 contents Hhit).
  apply truncate_trace.
Qed.

Lemma write_through_witness :
  let env := with_decoder (world None ok_response (batch 0 2) true) (batch 0 2) in
  let env' := with_object env "bucket" "prefix/tile_size=2/0.cbor.gz" [] in
  cache_hit env' (handler 2) (get_entries "1" "1") 1 2 (batch 0 2) /\
  trace (ServeHTTP env' (handler 2) (get_entries "1" "1"))
  = [GetObjectCall "bucket" "prefix/tile_size=2/0.cbor.gz"].
Proof.
  intros env env'.
  apply (write_through env (handler 2) (get_entries "0" "0") 0 1
           (get_entries "1" "1") 1 2 (batch 0 2)
           "bucket" "prefix/tile_size=2/0.cbor.gz" []).
  - phase.
  - vm_compute. reflexivity.
  - intros raw body Henc Hzip.
    assert (Hraw : raw = body) by (vm_compute in Hzip; congruence).
    subst raw. split; reflexivity.
  - phase.
  - vm_compute. reflexivity.
Defined.

(* ================================================================== *)
(** * Witnesses of the phase lemmas *)

Lemma cache_hit_served_witness :
  let out := ServeHTTP (world (Some (batch 0 2)) ok_response (batch 0 2) true)
               (handler 2) (get_entries "1" "5") in
  status (response out) <> Some 400 /\ status (response out) = Some 200.
Proof.
  intros out.
  destruct (cache_hit_served (world (Some (batch 0 2)) ok_response (batch 0 2) true)
              (handler 2) (get_entries "1" "5") 1 6 (batch 0 2)) as (Hno & Hok & _).
  - phase.
  - split; [exact Hno|]. apply Hok. vm_compute. discriminate.
Defined.

Lemma cache_hit_calls_witness :
  let out := ServeHTTP (world (Some (batch 0 2)) ok_response (batch 0 2) true)
               (handler 2) (get_entries "1" "5") in
  trace out = [GetObjectCall "bucket" "prefix/tile_size=2/0.cbor.gz"] /\
  Header (response out) !! "X-Source" = Some "S3"%string /\
  Header (response out) !! "X-Partial-Tile" = None.
Proof.
  apply (cache_hit_calls (world (Some (batch 0 2)) ok_response (batch 0 2) true)
           (handler 2) (get_entries "1" "5") 1 6 (batch 0 2)).
  phase.
Defined.

Lemma cache_failure_witness :
  let env := with_get_error (world None ok_response (batch 0 2) true)
               (foreignError "RequestTimeout") in
  let out := ServeHTTP env (handler 2) (get_entries "0" "0") in
  status (response out) = Some 500 /\
  trace out = [GetObjectCall "bucket" "prefix/tile_size=2/0.cbor.gz"].
Proof.
  intros env out.
  destruct (cache_failure env (handler 2) (get_entries "0" "0") 0 1
              (wrapError "getting from bucket 'bucket' with key 'prefix/tile_size=2/0.cbor.gz': "
                 (foreignError "RequestTimeout")))
    as (Hs & _ & Ht).
  - phase.
  - vm_compute. reflexivity.
  - reflexivity.
  - split; assumption.
Defined.

Lemma backend_failure_witness :
  status (response (ServeHTTP
                      (world None (inr (foreignError "connection refused")) (batch 0 2) true)
                      (handler 2) (get_entries "0" "0")))
  = Some 500.
Proof.
  apply (backend_failure
           (world None (inr (foreignError "connection refused")) (batch 0 2) true)
           (handler 2) (get_entries "0" "0") 0 1
           (wrapError "fetching https://log.example/2023/ct/v1/get-entries?start=0&end=1: "
              (foreignError "connection refused"))).
  - phase.
  - vm_compute. reflexivity.
  - reflexivity.
Defined.

Lemma write_failure_witness :
  let env := with_put_error (world None ok_response (batch 0 2) true)
               (foreignError "AccessDenied") in
  let out := ServeHTTP env (handler 2) (get_entries "0" "0") in
  outcome out = Returned /\ status (response out) = Some 500 /\
  written (response out)
  = [Text ("writing to s3: putting in bucket 'bucket' with key "
             +:+ "'prefix/tile_size=2/0.cbor.gz': AccessDenied" +:+ nl)].
Proof.
  intros env out.
  apply (write_failure env (handler 2) (get_entries "0" "0") 0 1 (batch 0 2)
           (errorString ("putting in bucket 'bucket' with key "
                           +:+ "'prefix/tile_size=2/0.cbor.gz': AccessDenied"))).
  - phase.
  - vm_compute. reflexivity.
  - vm_compute. reflexivity.
Defined.

(* ================================================================== *)
(** * What the adapters accept *)

(** [getFromS3] returns a batch exactly when the object exists, its
    gzip header and its CBOR content can be read, the decoded batch has
    exactly the tile's size and the tile's end is start + size; the
    batch is the decoded one. *)
Theorem getFromS3_ok_iff env tch t contents :
  getFromS3 env tch t = inl contents <->
  exists body stream,
    s3_GetObject env (s3Bucket tch) (s3Prefix tch +:+ key t) = GetObject_ok body /\
    gzip_NewReader env body = inl stream /\
    cbor_Decode env stream = inl contents /\
    len (Entries contents) = tile_size t /\
    tile_end t = add64 (tile_start t) (tile_size t).
Proof.
  unfold getFromS3.
  destruct (s3_GetObject env _ _) as [[|] err|body].
  1,2: split; [discriminate | intros (b & s & [=] & _)].
  destruct (gzip_NewReader env body) as [stream|err] eqn:Hzip.
  2:{ split; [discriminate|]. intros (b & s & [= <-] & H & _). congruence. }
  destruct (cbor_Decode env stream) as [es|err] eqn:Hdec.
  2:{ split; [discriminate|]. intros (b & s & [= <-] & H & H' & _).
      rewrite Hzip in H. injection H as <-. congruence. }
  destruct (Z.eqb_spec (len (Entries es)) (tile_size t)) as [Hlen|Hlen];
    destruct (Z.eqb_spec (tile_end t) (add64 (tile_start t) (tile_size t))) as [Hend|Hend];
    cbn [negb orb].
  - split.
    + intros [= <-]. exists body, stream. auto.
    + intros (b & s & [= <-] & H & H' & _). rewrite Hzip in H. injection H as <-.
      rewrite Hdec in H'. exact H'.
  - split; [discriminate|]. intros (_ & _ & _ & _ & _ & _ & H). contradiction.
  - split; [discriminate|]. intros (b & s & [= <-] & H & H' & Hl & _).
    rewrite Hzip in H. injection H as <-. rewrite Hdec in H'. injection H' as <-.
    contradiction.
  - split; [discriminate|]. intros (_ & _ & _ & _ & _ & _ & H). contradiction.
Qed.

(** [getTileFromBackend] returns a batch exactly when the request could
    be made, the backend answered 200 with a body that is read and
    decoded as JSON, and the batch has at least one entry and at most
    the tile's size; the batch is the decoded one. *)
Theorem getTileFromBackend_ok_iff env t contents :
  getTileFromBackend env t = inl contents <->
  http_NewRequest env (url t) = None /\
  exists resp body,
    http_Do env (url t) = inl resp /\ StatusCode resp = 200 /\
    Body resp = inl body /\ json_Decode env body = inl contents /\
    0 < len (Entries contents) <= tile_size t.
Proof.
  unfold getTileFromBackend.
  destruct (http_NewRequest env (url t)) as [e|].
  { split; [discriminate | intros [[=] _]]. }
  destruct (http_Do env (url t)) as [resp|e].
  2:{ split; [discriminate | intros (_ & resp & b & [=] & _)]. }
  destruct (Z.eqb_spec (StatusCode resp) 200) as [H200|Hne]; cbn [negb].
  2:{ split.
      - destruct (Body resp); discriminate.
      - intros (_ & resp' & b & [= <-] & Hc & _). contradiction. }
  destruct (Body resp) as [b|e] eqn:Hb.
  2:{ split; [discriminate|]. intros (_ & resp' & b & [= <-] & _ & Hb' & _).
      congruence. }
  destruct (json_Decode env b) as [es|e] eqn:Hjson.
  2:{ split; [discriminate|]. intros (_ & resp' & b' & [= <-] & _ & Hb' & Hj & _).
      rewrite Hb in Hb'. injection Hb' as <-. congruence. }
  pose proof (len_nonneg (Entries es)) as Hnn.
  destruct (Z.ltb_spec (tile_size t) (len (Entries es))) as [Hbig|Hfit];
    [|destruct (Z.eqb_spec (len (Entries es)) 0) as [Hzero|Hnz]]; cbn [orb].
  - split; [discriminate|]. intros (_ & resp' & b' & [= <-] & _ & Hb' & Hj & Hl).
    rewrite Hb in Hb'. injection Hb' as <-. rewrite Hjson in Hj. injection Hj as <-. lia.
  - split; [discriminate|]. intros (_ & resp' & b' & [= <-] & _ & Hb' & Hj & Hl).
    rewrite Hb in Hb'. injection Hb' as <-. rewrite Hjson in Hj. injection Hj as <-. lia.
  - split.
    + intros [= <-]. split; [reflexivity|]. exists resp, b.
      repeat split; try assumption; lia.
    + intros (_ & resp' & b' & [= <-] & _ & Hb' & Hj & Hl).
      rewrite Hb in Hb'. injection Hb' as <-. rewrite Hjson in Hj. exact Hj.
Qed.

Lemma writeToS3_put_key env tch t contents bucket k body :
  writeToS3 env tch t contents = (None, [PutObjectCall bucket k body]) ->
  bucket = s3Bucket tch /\ k = s3Prefix tch +:+ key t.
Proof.
  unfold writeToS3.
  destruct (_ || _); [discriminate|].
  destruct (cbor_Encode env contents) as [raw|]; [|discriminate].
  destruct (gzip_Close env raw) as [body'|]; [|discriminate].
  destruct (s3_PutObject env _ _ _); [discriminate|].
  intros [= <- <- _]. auto.
Qed.

(** Round trip through the cache: the batch that [writeToS3] has put
    into S3 is what [getFromS3] returns for the same tile once the
    object is there (provided the decoders undo the encoders on that
    batch), and the reads of tiles with another key are not changed by
    the new object. *)
Theorem cache_round_trip env tch t contents bucket k body :
  writeToS3 env tch t contents = (None, [PutObjectCall bucket k body]) ->
  codec_round_trip env contents ->
  getFromS3 (with_object env bucket k body) tch t = inl contents /\
  forall t', key t' <> key t ->
    getFromS3 (with_object env bucket k body) tch t' = getFromS3 env tch t'.
Proof.
  intros Hwrite Hcodec. split; [apply getFromS3_writeToS3; assumption|].
  intros t' Hkey. destruct (writeToS3_put_key _ _ _ _ _ _ _ Hwrite) as [-> ->].
  unfold getFromS3. cbn [with_object s3_GetObject gzip_NewReader cbor_Decode Quote].
  destruct (String.eqb_spec (s3Prefix tch +:+ key t') (s3Prefix tch +:+ key t)) as [E|_].
  - apply append_cancel_l in E. contradiction.
  - rewrite andb_false_r. reflexivity.
Qed.

Lemma cache_round_trip_witness :
  let env := world (Some (batch 0 2)) ok_response (batch 0 2) true in
  getFromS3 (with_object env "bucket" "prefix/tile_size=2/0.cbor.gz" []) (handler 2)
    (tile_of (handler 2) 0)
  = inl (batch 0 2).
Proof.
  intros env.
  destruct (cache_round_trip env (handler 2) (tile_of (handler 2) 0) (batch 0 2)
              "bucket" "prefix/tile_size=2/0.cbor.gz" []) as [H _].
  - vm_compute. reflexivity.
  - intros raw body Henc Hzip.
    assert (Hraw : raw = body) by (vm_compute in Hzip; congruence).
    subst raw. split; reflexivity.
  - exact H.
Defined.

(** The tiles of one size partition the positions: a position is mapped
    to the tile of [start] exactly when it lies in
    [[tile.start, tile.start + size)]. *)
Theorem tiles_partition (start p size : Z) (logURL : string) :
  0 < size -> 0 <= start <= max_int64 -> 0 <= p <= max_int64 ->
  makeTile p size logURL = makeTile start size logURL <->
  tile_start (makeTile start size logURL) <= p
    < tile_start (makeTile start size logURL) + size.
Proof.
  intros Hsize Hstart Hp. split.
  - intros H. rewrite <- H. rewrite makeTile_start by assumption.
    pose proof (Z.mod_pos_bound p size Hsize). lia.
  - apply makeTile_same_tile; assumption.
Qed.

Lemma tiles_partition_witness :
  makeTile 1999 1000 "https://log.example/2023"
  = makeTile 1234 1000 "https://log.example/2023" /\
  makeTile 2000 1000 "https://log.example/2023"
  <> makeTile 1234 1000 "https://log.example/2023".
Proof.
  split.
  - apply (tiles_partition 1234 1999 1000 "https://log.example/2023");
      vm_compute; repeat split; discriminate.
  - intros H.
    apply (tiles_partition 1234 2000 1000 "https://log.example/2023") in H;
      [|vm_compute; repeat split; discriminate ..].
    vm_compute in H. destruct H as [_ H]. discriminate.
Defined.

(* ================================================================== *)
(** * One answer per request *)

Lemma truncate_answers w tr start end_ t contents :
  status w = None -> written w = [] ->
  let out := truncateAndRespond w tr start end_ t contents in
  (outcome out = Returned ->
   exists code c, status (response out) = Some code /\ written (response out) = [c]) /\
  (outcome out = Panicked -> response out = w).
Proof.
  intros Hfresh Hempty out. unfold out, truncateAndRespond.
  destruct (_ <=? _).
  { split; [|discriminate]. intros _. cbn. rewrite Hfresh, Hempty. eauto. }
  destruct (slice_from _ _); [|split; [discriminate | reflexivity]].
  destruct (if _ <? _ then _ else _); [|split; [discriminate | reflexivity]].
  split; [|discriminate]. intros _. cbn. rewrite Hfresh, Hempty. eauto.
Qed.

(** Whenever the handler returns it has written exactly one status code
    and exactly one body; when it panics it has written neither. *)
Theorem answers_once env tch r :
  let out := ServeHTTP env tch r in
  (outcome out = Returned ->
   exists code c, status (response out) = Some code /\ written (response out) = [c]) /\
  (outcome out = Panicked ->
   status (response out) = None /\ written (response out) = []).
Proof.
  intros out.
  assert (Htrunc : forall w tr start end_ t contents,
             status w = None -> written w = [] ->
             let o := truncateAndRespond w tr start end_ t contents in
             (outcome o = Returned ->
              exists code c, status (response o) = Some code /\ written (response o) = [c]) /\
             (outcome o = Panicked ->
              status (response o) = None /\ written (response o) = [])).
  { intros w tr start end_ t contents Hf He o.
    destruct (truncate_answers w tr start end_ t contents Hf He) as [H1 H2].
    split; [exact H1|]. intros Hp. fold o in H2. rewrite (H2 Hp). auto. }
  unfold out, ServeHTTP.
  destruct (HasSuffix (Path r) "/ct/v1/get-entries"); cbn [negb].
  2:{ split; [intros _; cbn; eauto | discriminate]. }
  destruct (parseQueryParams (Query r)) as [[start end_]|err].
  2:{ split; [intros _; cbn; eauto | discriminate]. }
  destruct (tileSize tch =? 0); [split; [discriminate | auto]|].
  destruct (getFromS3 env tch _) as [contents|err]; [apply Htrunc; reflexivity|].
  destruct (errors_Is_noSuchKey err); cbn [negb].
  2:{ split; [intros _; cbn; eauto | discriminate]. }
  destruct (getTileFromBackend env _) as [contents|berr].
  2:{ cbv zeta.
      match goal with
      | |- context [respond ?code ?c ?w ?tr] =>
          destruct (respond_cases code c w tr eq_refl) as [[_ ->]|[_ ->]]
      end.
      - split; [intros _; cbn; eauto | discriminate].
      - split; [discriminate | auto]. }
  destruct (len (Entries contents) =? tileSize tch); [|apply Htrunc; reflexivity].
  destruct (writeToS3 env tch _ contents) as [[werr|] puts];
    [|apply Htrunc; reflexivity].
  split; [intros _; cbn; eauto | discriminate].
Qed.

(* ================================================================== *)
(** * Backend URLs *)

(** For one log URL, two tiles are fetched from the same backend URL
    exactly when they have the same start and the same last position
    [end - 1] (in int64 arithmetic). *)
Theorem url_injective (t1 t2 : tile) :
  tile_logURL t1 = tile_logURL t2 ->
  url t1 = url t2 <->
  tile_start t1 = tile_start t2 /\ sub64 (tile_end t1) 1 = sub64 (tile_end t2) 1.
Proof.
  intros Hlog. unfold url. rewrite Hlog. split.
  - intros H. apply append_cancel_l in H. apply append_cancel_l in H.
    change ("&end=" +:+ Sprintf_d (sub64 (tile_end t1) 1))
      with (String "&" ("end=" +:+ Sprintf_d (sub64 (tile_end t1) 1))) in H.
    change ("&end=" +:+ Sprintf_d (sub64 (tile_end t2) 1))
      with (String "&" ("end=" +:+ Sprintf_d (sub64 (tile_end t2) 1))) in H.
    apply append_separator_inj in H as [Hstart Hend];
      try (apply occurs_Sprintf_d; reflexivity).
    apply append_cancel_l in Hend.
    split; apply Sprintf_d_inj; assumption.
  - intros [Hs He]. rewrite Hs, He. reflexivity.
Qed.

Lemma url_injective_witness :
  url (makeTile 1234 1000 "https://log.example/2023")
  <> url (makeTile 2234 1000 "https://log.example/2023").
Proof.
  intros H.
  apply (url_injective (makeTile 1234 1000 "https://log.example/2023")
           (makeTile 2234 1000 "https://log.example/2023")) in H;
    [|reflexivity].
  destruct H as [H _]. vm_compute in H. discriminate.
Defined.

(* ================================================================== *)
(** * The top of the int64 range, and invalid status codes *)

(** C5.  A partial tile of two entries (tile size 4) fetched for the
    request start=0, end=2^63-1: nothing is written to the cache, but
    the handler panics in the truncation, so that no response is sent,
    with or without the X-Partial-Tile header. *)
Theorem partial_tile_panics_on_whole_range :
  let env := world None ok_response (batch 0 2) true in
  let tch := handler 4 in
  let r := get_entries "0" "9223372036854775807" in
  let out := ServeHTTP env tch r in
  fetched env tch r 0 min_int64 (batch 0 2) /\
  len (Entries (batch 0 2)) < tileSize tch /\
  cache_writes (trace out) = [] /\
  outcome out = Panicked /\
  status (response out) = None /\
  written (response out) = [].
Proof.
  intros env tch r out. split; [phase|].
  split; [vm_compute; reflexivity|]. phase.
Qed.


(** After a cache miss, a backend answer whose status is not a valid
    status code (below 100 or above 999) makes the handler panic in
    [WriteHeader]: neither a status nor a body is written. *)
Theorem backend_invalid_status env tch r start end_ code body :
  backend_refuses env tch r start end_ code body ->
  ~ 100 <= code <= 999 ->
  let out := ServeHTTP env tch r in
  outcome out = Panicked /\
  status (response out) = None /\
  written (response out) = [] /\
  cache_writes (trace out) = [].
Proof.
  intros (Hmiss & Hreq & resp & Hdo & Hcode & Hne & Hbody) Hbad out.
  unfold out. rewrite (ServeHTTP_cache_miss env tch r start end_ Hmiss). cbv zeta.
  subst code.
  rewrite (getTileFromBackend_refused env (tile_of tch start) resp body Hreq Hdo Hne Hbody).
  cbn [errors_As_statusCodeError]. rewrite respond_invalid by assumption.
  repeat split.
Qed.

Lemma backend_invalid_status_witness :
  let env := world None (inl {| StatusCode := 99; Body := inl (bytes "odd") |})
               (batch 0 2) true in
  let out := ServeHTTP env (handler 2) (get_entries "0" "0") in
  outcome out = Panicked /\
  status (response out) = None /\
  written (response out) = [] /\
  cache_writes (trace out) = [].
Proof.
  intros env out.
  apply (backend_invalid_status env (handler 2) (get_entries "0" "0") 0 1
           99 (bytes "odd")).
  - phase.
  - lia.
Defined.
